(** * umsgpack/mp_load.py: the MessagePack decoder, embedded and verified

    The decoder of micropython-msgpack reads one encoded value from a
    file-like object.  The embedding below follows [mp_load.py] function by
    function: Python values are an inductive type, exceptions are a sum in a
    state-and-error monad over the byte source, the two dictionaries used as
    lookup tables (the per-call [ext_handlers] and the module-level
    [ext_type_to_class]) are finite maps, and the dictionary under
    construction in [_unpack_map] is an association list in insertion order
    compared with Python's [==]. *)

From stdpp Require Import base gmap strings list.
From Stdlib Require Import ZArith Lia.
From Stdlib.Strings Require Import Byte.

Local Open Scope Z_scope.
Set Warnings "-register-all".

(** ** Python values *)

(** A Python float as [struct.unpack] produces it from an IEEE-754 field,
    decoded exactly: NaN, an infinity, or [(-1)^neg * m * 2^e]. *)
Inductive pyfloat : Type :=
| FNan
| FInf (neg : bool)
| FFin (neg : bool) (m : Z) (e : Z).

(** The values the decoder produces: [None], booleans, integers, floats,
    text as its code points, byte strings, lists, tuples, dictionaries (plain
    or [OrderedDict], their items in insertion order) and [Ext] objects.
    User callbacks (an extension handler, an [unpackb] class method) may hand
    back objects of their own classes: a [VObject] is known by its [id] and
    by whether its class is hashable. *)
Inductive value : Type :=
| VNone
| VBool (b : bool)
| VInt (z : Z)
| VFloat (f : pyfloat)
| VStr (s : list Z)
| VBytes (b : list byte)
| VList (xs : list value)
| VTuple (xs : list value)
| VDict (ordered : bool) (items : list (value * value))
| VExt (type : Z) (data : list byte)
| VObject (hashable : bool) (id : Z).

(** The exceptions of [umsgpack], the built-in ones the decoder can meet, and
    [Raised] for whatever a user callback raises.  [LogicError] is
    [Exception('Logic error')] of [_fail].  [OutOfFuel] is not a Python
    exception: it marks a run of the model that exhausted its bound on
    recursion depth or on loop iterations. *)
Inductive exn : Type :=
| InsufficientDataException
| ReservedCodeException
| InvalidStringException
| UnhashableKeyException
| DuplicateKeyException
| NotImplementedError
| LogicError
| TypeError
| IndexError
| StructError
| Raised (name : string)
| OutOfFuel.

Inductive result (A : Type) : Type :=
| Ok (a : A)
| Err (e : exn).
Arguments Ok {A} a.
Arguments Err {A} e.

(** The outcome of calling user code. *)
Inductive handler_result : Type :=
| Returned (v : value)
| Raises (name : string).

(** An entry of the registry [ext_type_to_class]: a class, with its
    [unpackb] attribute when it has one. *)
Record ext_class : Type := { unpackb : option (list byte → handler_result) }.

(** The [options] dictionary, by the four keys the decoder reads with
    [options.get]; a missing or empty [ext_handlers] is the empty map. *)
Record options : Type := {
  use_tuple : bool;
  use_ordered_dict : bool;
  allow_invalid_utf8 : bool;
  ext_handlers : gmap Z (value → handler_result)
}.

(** ** The state-and-error monad over a byte source *)

Definition M (Src A : Type) : Type := Src → result (A * Src).

Definition ret {Src A} (a : A) : M Src A := λ fp, Ok (a, fp).

Definition raise {Src A} (e : exn) : M Src A := λ _, Err e.

Definition bind {Src A B} (m : M Src A) (k : A → M Src B) : M Src B :=
  λ fp, match m fp with
        | Ok (a, fp') => k a fp'
        | Err e => Err e
        end.

Definition lift {Src A} (r : result A) : M Src A :=
  λ fp, match r with
        | Ok a => Ok (a, fp)
        | Err e => Err e
        end.

Notation "x <- m ;; k" := (bind m (λ x, k))
  (at level 100, m at next level, right associativity).

(** ** Byte sources *)

(** [fp.read(n)]: some bytes and the source afterwards. *)
Class ByteSource (Src : Type) : Type := read : Src → nat → list byte * Src.

(** The contract of a file-like [read]: at most [n] bytes come back. *)
Class LawfulSource (Src : Type) `{ByteSource Src} : Prop :=
  read_at_most : ∀ (fp : Src) (n : nat), (length (read fp n).1 ≤ n)%nat.

(** [uio.BytesIO(s)]: the unread rest of the buffer. *)
Global Instance BytesIO : ByteSource (list byte) :=
  λ s n, (take n s, drop n s).

(** A transport that delivers its data in chunks: each [read] returns at most
    the next pending chunk (an empty list when none is pending, as at the end
    of the stream), and puts back what it was not asked for. *)
Global Instance Chunked : ByteSource (list (list byte)) :=
  λ chunks n,
    match chunks with
    | [] => ([], [])
    | c :: rest =>
        if (length c <=? n)%nat then (c, rest)
        else (take n c, drop n c :: rest)
    end.

(** ** Bytes, integers and [struct.unpack] *)

Definition ord (b : byte) : Z := Z.of_N (Byte.to_N b).

Definition be_unsigned (bs : list byte) : Z :=
  fold_left (λ acc b, acc * 256 + ord b) bs 0.

Definition be_signed (bs : list byte) : Z :=
  let u := be_unsigned bs in
  let w := 8 * Z.of_nat (length bs) in
  if Z.testbit u (w - 1) then u - 2 ^ w else u.

Definition ieee_decode (ebits mbits : Z) (bits : Z) : pyfloat :=
  let frac := Z.land bits (Z.ones mbits) in
  let ex := Z.land (Z.shiftr bits mbits) (Z.ones ebits) in
  let neg := Z.testbit bits (ebits + mbits) in
  let bias := Z.ones (ebits - 1) in
  if ex =? Z.ones ebits then (if frac =? 0 then FInf neg else FNan)
  else if ex =? 0 then FFin neg frac (1 - bias - mbits)
  else FFin neg (Z.setbit frac mbits) (ex - bias - mbits).

(** [struct.unpack(fmt, data)[0]] for the formats the decoder uses; any other
    format string, or a buffer of the wrong size, is [struct.error]. *)
Definition struct_unpack (fmt : string) (data : list byte) : result value :=
  let sized (n : nat) (v : value) : result value :=
    if (length data =? n)%nat then Ok v else Err StructError in
  if String.eqb fmt "B" then sized 1%nat (VInt (be_unsigned data))
  else if String.eqb fmt ">H" then sized 2%nat (VInt (be_unsigned data))
  else if String.eqb fmt ">I" then sized 4%nat (VInt (be_unsigned data))
  else if String.eqb fmt ">Q" then sized 8%nat (VInt (be_unsigned data))
  else if String.eqb fmt "b" then sized 1%nat (VInt (be_signed data))
  else if String.eqb fmt ">h" then sized 2%nat (VInt (be_signed data))
  else if String.eqb fmt ">i" then sized 4%nat (VInt (be_signed data))
  else if String.eqb fmt ">q" then sized 8%nat (VInt (be_signed data))
  else if String.eqb fmt ">f" then
    sized 4%nat (VFloat (ieee_decode 8 23 (be_unsigned data)))
  else if String.eqb fmt ">d" then
    sized 8%nat (VFloat (ieee_decode 11 52 (be_unsigned data)))
  else Err StructError.

(** Python's [s[lo:hi]] on a string: negative indices count from the end,
    everything is clamped, and an empty range is the empty string (a slice
    never raises [IndexError]). *)
Definition slice_index (len i : Z) : Z :=
  if i <? 0 then Z.max 0 (i + len) else Z.min i len.

Definition py_slice (s : string) (lo hi : Z) : string :=
  let len := Z.of_nat (String.length s) in
  let a := slice_index len lo in
  let b := slice_index len hi in
  String.substring (Z.to_nat a) (Z.to_nat (b - a)) s.

Definition is_space (c : Ascii.ascii) : bool :=
  let n := Ascii.nat_of_ascii c in
  ((n =? 32) || ((9 <=? n) && (n <=? 13)))%nat.

Fixpoint lstrip (s : string) : string :=
  match s with
  | EmptyString => EmptyString
  | String c s' => if is_space c then lstrip s' else s
  end.

Fixpoint rstrip (s : string) : string :=
  match s with
  | EmptyString => EmptyString
  | String c s' =>
      match rstrip s' with
      | EmptyString => if is_space c then EmptyString else String c EmptyString
      | r => String c r
      end
  end.

Definition strip (s : string) : string := rstrip (lstrip s).

(** [hay.find(b)] for a one-byte needle: the first index, or -1. *)
Fixpoint bytes_find (hay : list byte) (b : byte) (i : Z) : Z :=
  match hay with
  | [] => -1
  | x :: hay' => if Byte.eqb x b then i else bytes_find hay' b (i + 1)
  end.

(** [str(data, 'utf-8')]: the code points of a well-formed UTF-8 sequence
    (no overlong forms, no surrogates, nothing above U+10FFFF). *)
Definition is_cont (b : byte) : bool := Z.land (ord b) 0xc0 =? 0x80.

Definition cont_bits (b : byte) : Z := Z.land (ord b) 0x3f.

Fixpoint utf8_decode (bs : list byte) : option (list Z) :=
  match bs with
  | [] => Some []
  | b0 :: t0 =>
      let c0 := ord b0 in
      if c0 <? 0x80 then cons c0 <$> utf8_decode t0
      else if c0 <? 0xc2 then None
      else if c0 <? 0xe0 then
        match t0 with
        | b1 :: t1 =>
            let cp := Z.lor (Z.shiftl (Z.land c0 0x1f) 6) (cont_bits b1) in
            if is_cont b1 then cons cp <$> utf8_decode t1 else None
        | _ => None
        end
      else if c0 <? 0xf0 then
        match t0 with
        | b1 :: b2 :: t2 =>
            let cp := Z.lor (Z.shiftl (Z.land c0 0x0f) 12)
                        (Z.lor (Z.shiftl (cont_bits b1) 6) (cont_bits b2)) in
            if is_cont b1 && is_cont b2 && (0x800 <=? cp)
               && negb ((0xd800 <=? cp) && (cp <=? 0xdfff))
            then cons cp <$> utf8_decode t2 else None
        | _ => None
        end
      else if c0 <? 0xf5 then
        match t0 with
        | b1 :: b2 :: b3 :: t3 =>
            let cp := Z.lor (Z.shiftl (Z.land c0 0x07) 18)
                        (Z.lor (Z.shiftl (cont_bits b1) 12)
                           (Z.lor (Z.shiftl (cont_bits b2) 6) (cont_bits b3))) in
            if is_cont b1 && is_cont b2 && is_cont b3
               && (0x10000 <=? cp) && (cp <=? 0x10ffff)
            then cons cp <$> utf8_decode t3 else None
        | _ => None
        end
      else None
  end.

(** ** Hashing and equality of keys *)

(** Modelled from the spec: the class [Ext] is declared in [__init__.py],
    which is not among the sources.  The specification makes an Extension
    Object the pair of a signed type identifier and a binary payload: two of
    them are equal when both components are, and they hash as that pair. *)
Definition Ext_hashable : bool := true.

(** [hash(v)] succeeds: lists and dictionaries are unhashable, a tuple is
    hashable when all its elements are, an object of a user class says so
    itself. *)
Fixpoint hashable (v : value) : bool :=
  match v with
  | VList _ | VDict _ _ => false
  | VTuple xs => forallb hashable xs
  | VExt _ _ => Ext_hashable
  | VObject h _ => h
  | _ => true
  end.

Definition py_hash (v : value) : result unit :=
  if hashable v then Ok () else Err TypeError.

(** The number a [bool], [int] or [float] stands for. *)
Definition num_of (v : value) : option pyfloat :=
  match v with
  | VBool b => Some (FFin false (if b then 1 else 0) 0)
  | VInt z => Some (FFin (z <? 0) (Z.abs z) 0)
  | VFloat f => Some f
  | _ => None
  end.

Definition num_eqb (x y : pyfloat) : bool :=
  match x, y with
  | FInf n1, FInf n2 => Bool.eqb n1 n2
  | FFin n1 m1 e1, FFin n2 m2 e2 =>
      let lo := Z.min e1 e2 in
      ((if n1 then - m1 else m1) * 2 ^ (e1 - lo)
       =? (if n2 then - m2 else m2) * 2 ^ (e2 - lo))
  | _, _ => false
  end.

Fixpoint bytes_eqb (a b : list byte) : bool :=
  match a, b with
  | [], [] => true
  | x :: a', y :: b' => Byte.eqb x y && bytes_eqb a' b'
  | _, _ => false
  end.

(** Modelled from the spec: [Ext.__eq__], see [Ext_hashable]. *)
Definition Ext_eq (t1 : Z) (d1 : list byte) (t2 : Z) (d2 : list byte) : bool :=
  (t1 =? t2) && bytes_eqb d1 d2.

(** Python's [a == b] on hashable values, as the lookup [k in d] applies it:
    numbers compare by value across [bool], [int] and [float] (a NaN equals
    nothing), strings, byte strings and extension objects by content, tuples
    element by element, objects of user classes by identity.  Unhashable
    values never get into or near a dictionary: on them the answer is
    [false]. *)
Fixpoint key_eq (a b : value) : bool :=
  match num_of a, num_of b with
  | Some x, Some y => num_eqb x y
  | Some _, None | None, Some _ => false
  | None, None =>
      match a, b with
      | VNone, VNone => true
      | VStr s, VStr t => bool_decide (s = t)
      | VBytes s, VBytes t => bytes_eqb s t
      | VExt t1 d1, VExt t2 d2 => Ext_eq t1 d1 t2 d2
      | VObject h1 i1, VObject h2 i2 => Bool.eqb h1 h2 && (i1 =? i2)
      | VTuple xs, VTuple ys =>
          (fix all2 (xs ys : list value) {struct xs} : bool :=
             match xs, ys with
             | [], [] => true
             | x :: xs', y :: ys' => key_eq x y && all2 xs' ys'
             | _, _ => false
             end) xs ys
      | _, _ => false
      end
  end.

(** [k in d] and [d[k] = v] on the items of a dictionary, kept in insertion
    order. *)
Definition dict_contains (k : value) (items : list (value * value)) : bool :=
  existsb (λ kv, key_eq k kv.1) items.

Fixpoint dict_replace (k v : value) (items : list (value * value))
  : list (value * value) :=
  match items with
  | [] => [(k, v)]
  | (k', v') :: items' =>
      if key_eq k k' then (k', v) :: items'
      else (k', v') :: dict_replace k v items'
  end.

Definition dict_setitem (k v : value) (items : list (value * value))
  : result (list (value * value)) :=
  if hashable k then Ok (dict_replace k v items) else Err TypeError.

(** [_deep_list_to_tuple]: only lists are entered. *)
Fixpoint _deep_list_to_tuple (obj : value) : value :=
  match obj with
  | VList xs => VTuple (map _deep_list_to_tuple xs)
  | _ => obj
  end.

Definition is_list (v : value) : bool :=
  match v with
  | VList _ => true
  | _ => false
  end.

(** A Python [int] used as a number; [bool] is a subclass of [int]. *)
Definition as_int {Src} (v : value) : M Src Z :=
  match v with
  | VInt z => ret z
  | VBool b => ret (if b then 1 else 0)
  | _ => raise TypeError
  end.

(** ** The decoder *)

Section Decoder.

Context {Src : Type} `{!ByteSource Src}.

(** The module-level registry filled by the [ext_serializable] decorator. *)
Variable ext_type_to_class : gmap Z ext_class.

Definition _fail {A : Type} : M Src A := raise LogicError.

(** The [while len(data) < n] loop of [_read_except].  Every turn that does
    not raise makes [data] longer, so [n] turns are enough ([fuel]). *)
Fixpoint _read_loop (fuel n : nat) (data : list byte) : M Src (list byte) :=
  λ fp,
    if (length data <? n)%nat then
      match fuel with
      | O => Err OutOfFuel
      | S fuel' =>
          let '(chunk, fp') := read fp (n - length data)%nat in
          if (length chunk =? 0)%nat then Err InsufficientDataException
          else _read_loop fuel' n (data ++ chunk) fp'
      end
    else Ok (data, fp).

Definition _read_except (n : nat) : M Src (list byte) :=
  λ fp,
    if (n =? 0)%nat then Ok ([], fp)
    else
      let '(data, fp') := read fp n in
      if (length data =? 0)%nat then Err InsufficientDataException
      else _read_loop n n data fp'.

Definition _re0 (s : string) (n : nat) : M Src value :=
  data <- _read_except n ;;
  lift (struct_unpack s data).

(** The source guards the slice with [except IndexError: _fail()]; slicing a
    string never raises, so that handler has no run to model. *)
Definition _unpack_integer (code : byte) : M Src value :=
  let ic := ord code in
  if Z.land ic 0xe0 =? 0xe0 then lift (struct_unpack "b" [code])
  else if Z.land ic 0x80 =? 0x00 then lift (struct_unpack "B" [code])
  else
    let ic := ic - 0xcc in
    let off := Z.shiftl ic 1 in
    let s := py_slice "B >H>I>Qb >h>i>q" off (off + 2) in
    _re0 (strip s) (Z.to_nat (Z.shiftl 1 (Z.land ic 3))).

Definition _unpack_float (code : byte) : M Src value :=
  let ic := ord code in
  if ic =? 0xca then _re0 ">f" 4
  else if ic =? 0xcb then _re0 ">d" 8
  else _fail.

Definition _unpack_string (code : byte) (o : options) : M Src value :=
  let ic := ord code in
  length <- (if Z.land ic 0xe0 =? 0xa0 then ret (VInt (Z.land ic (Z.lnot 0xe0)))
             else if ic =? 0xd9 then _re0 "B" 1
             else if ic =? 0xda then _re0 ">H" 2
             else if ic =? 0xdb then _re0 ">I" 4
             else _fail) ;;
  length <- as_int length ;;
  data <- _read_except (Z.to_nat length) ;;
  match utf8_decode data with
  | Some s => ret (VStr s)
  | None =>
      if allow_invalid_utf8 o then ret (VBytes data)
      else raise InvalidStringException
  end.

Definition _unpack_binary (code : byte) : M Src value :=
  let ic := ord code in
  length <- (if ic =? 0xc4 then _re0 "B" 1
             else if ic =? 0xc5 then _re0 ">H" 2
             else if ic =? 0xc6 then _re0 ">I" 4
             else _fail) ;;
  length <- as_int length ;;
  data <- _read_except (Z.to_nat length) ;;
  ret (VBytes data).

(** What [_unpack_ext] does once the Extension Object is read. *)
Definition ext_resolve (o : options) (ext_type : Z) (ext_data : list byte)
  : M Src value :=
  let ext := VExt ext_type ext_data in
  match ext_handlers o !! ext_type with
  | Some handler =>
      match handler ext with
      | Returned v => ret v
      | Raises name => raise (Raised name)
      end
  | None =>
      match ext_type_to_class !! ext_type with
      | Some cls =>
          match unpackb cls with
          | None => raise NotImplementedError
          | Some f =>
              match f ext_data with
              | Returned v => ret v
              | Raises name =>
                  if String.eqb name "AttributeError"
                  then raise NotImplementedError
                  else raise (Raised name)
              end
          end
      | None => ret ext
      end
  end.

Definition _unpack_ext (code : byte) (o : options) : M Src value :=
  let ic := ord code in
  let n := bytes_find [xd4; xd5; xd6; xd7; xd8] code 0 in
  let length := if n <? 0 then 0 else Z.shiftl 1 n in
  length <- (if length =? 0 then
               if ic =? 0xc7 then _re0 "B" 1
               else if ic =? 0xc8 then _re0 ">H" 2
               else if ic =? 0xc9 then _re0 ">I" 4
               else _fail
             else ret (VInt length)) ;;
  length <- as_int length ;;
  ext_type <- _re0 "b" 1 ;;
  ext_type <- as_int ext_type ;;
  ext_data <- _read_except (Z.to_nat length) ;;
  ext_resolve o ext_type ext_data.

(** The generator [(load(fp, options) for i in range(length))], run to its
    end by [tuple(g)] or [list(g)]. *)
Fixpoint _unpack_array_gen (load : M Src value) (length : nat)
  : M Src (list value) :=
  match length with
  | O => ret []
  | S length' =>
      v <- load ;;
      vs <- _unpack_array_gen load length' ;;
      ret (v :: vs)
  end.

Definition _unpack_array (load : options → M Src value) (code : byte)
  (o : options) : M Src value :=
  let ic := ord code in
  length <- (if Z.land ic 0xf0 =? 0x90 then ret (VInt (Z.land ic (Z.lnot 0xf0)))
             else if ic =? 0xdc then _re0 ">H" 2
             else if ic =? 0xdd then _re0 ">I" 4
             else _fail) ;;
  length <- as_int length ;;
  g <- _unpack_array_gen (load o) (Z.to_nat length) ;;
  ret (if use_tuple o then VTuple g else VList g).

(** The [for _ in range(length)] loop of [_unpack_map] over the items [d]
    inserted so far. *)
Fixpoint _unpack_map_for (load : M Src value) (length : nat)
  (d : list (value * value)) : M Src (list (value * value)) :=
  match length with
  | O => ret d
  | S length' =>
      k <- load ;;
      let k := if is_list k then _deep_list_to_tuple k else k in
      match py_hash k with
      | Err _ => raise UnhashableKeyException
      | Ok _ =>
          if dict_contains k d then raise DuplicateKeyException
          else
            v <- load ;;
            match dict_setitem k v d with
            | Ok d' => _unpack_map_for load length' d'
            | Err TypeError => raise UnhashableKeyException
            | Err e => raise e
            end
      end
  end.

Definition _unpack_map (load : options → M Src value) (code : byte)
  (o : options) : M Src value :=
  let ic := ord code in
  length <- (if Z.land ic 0xf0 =? 0x80 then ret (VInt (Z.land ic (Z.lnot 0xf0)))
             else if ic =? 0xde then _re0 ">H" 2
             else if ic =? 0xdf then _re0 ">I" 4
             else _fail) ;;
  length <- as_int length ;;
  d <- _unpack_map_for (load o) (Z.to_nat length) [] ;;
  ret (VDict (use_ordered_dict o) d).

(** The body of [load], its recursive calls going through [load]. *)
Definition load_body (load : options → M Src value) (o : options)
  : M Src value :=
  code <- _read_except 1 ;;
  match code with
  | [c] =>
      let ic := ord c in
      if (ic <=? 0x7f) || ((0xcc <=? ic) && (ic <=? 0xd3))
         || ((0xe0 <=? ic) && (ic <=? 0xff))
      then _unpack_integer c
      else if ic <=? 0xc9 then
        if ic <=? 0xc3 then
          if ic <=? 0x8f then _unpack_map load c o
          else if ic <=? 0x9f then _unpack_array load c o
          else if ic <=? 0xbf then _unpack_string c o
          else if ic =? 0xc1 then raise ReservedCodeException
          else
            match [VNone; VInt 0; VBool false; VBool true]
                    !! Z.to_nat (ic - 0xc0) with
            | Some v => ret v
            | None => raise IndexError
            end
        else if ic <=? 0xc6 then _unpack_binary c
        else _unpack_ext c o
      else if ic <=? 0xcb then _unpack_float c
      else if ic <=? 0xd8 then _unpack_ext c o
      else if ic <=? 0xdb then _unpack_string c o
      else if ic <=? 0xdd then _unpack_array load c o
      else _unpack_map load c o
  | _ => raise TypeError
  end.

(** [load], with [fuel] bounding the depth of the nested calls. *)
Fixpoint load (fuel : nat) (o : options) : M Src value :=
  match fuel with
  | O => raise OutOfFuel
  | S fuel' => load_body (load fuel') o
  end.

End Decoder.

(** [loads]; [bytes] and [bytearray] are both [VBytes].  Every nested call
    of [load] reads at least its tag byte, so a depth of one more than the
    length of the buffer is never exhausted ([load_enough_fuel]), and any
    larger depth gives the same result ([load_fuel_irrelevant]). *)
Definition loads (ext_type_to_class : gmap Z ext_class) (s : value)
  (o : options) : result value :=
  match s with
  | VBytes b =>
      match load ext_type_to_class (S (length b)) o b with
      | Ok (v, _) => Ok v
      | Err e => Err e
      end
  | _ => Err TypeError
  end.

Definition default_options : options :=
  {| use_tuple := false; use_ordered_dict := false;
     allow_invalid_utf8 := false; ext_handlers := ∅ |}.

(** ** The vocabulary of the statements *)

(** *** Runs over a buffer *)

(** A run of [m] that succeeds on a buffer reads a prefix [c] of it and
    nothing else: the same run succeeds on [c] followed by anything, and on
    any strict prefix of [c] it fails for lack of data. *)
Definition streaming {A : Type} (m : M (list byte) A) : Prop :=
  ∀ s a r, m s = Ok (a, r) →
    ∃ c, s = c ++ r
         ∧ (∀ t, m (c ++ t) = Ok (a, t))
         ∧ (∀ p q, c = p ++ q → q ≠ [] →
              m p = Err InsufficientDataException).

(** [m] does not exhaust its fuel on a buffer shorter than [L]. *)
Definition bounded {A : Type} (L : nat) (m : M (list byte) A) : Prop :=
  ∀ s, (length s < L)%nat → m s ≠ Err OutOfFuel.

(** [m'] does whatever [m] does, wherever [m] does not exhaust its fuel. *)
Definition agree {Src A : Type} (m m' : M Src A) : Prop :=
  ∀ fp, m fp ≠ Err OutOfFuel → m' fp = m fp.

(** [c] is, byte for byte, the encoding of [v]: decoding [c] gives [v] and
    leaves nothing unread. *)
Definition encodes (ext_type_to_class : gmap Z ext_class) (o : options)
  (c : list byte) (v : value) : Prop :=
  load ext_type_to_class (S (length c)) o c = Ok (v, []).

(** *** The dispatcher *)

(** The categories of the wire-format table. *)
Inductive routine : Type :=
| RInteger | RFloat | RNil | RFalse | RTrue | RString | RBinary
| RArray | RMap | RExt | RReserved.

(** The wire-format table of the specification, row by row; the rows cover
    every byte, the last line is for numbers that are not bytes. *)
Definition wire_table (tag : Z) : routine :=
  if (0x00 <=? tag) && (tag <=? 0x7f) then RInteger
  else if (0x80 <=? tag) && (tag <=? 0x8f) then RMap
  else if (0x90 <=? tag) && (tag <=? 0x9f) then RArray
  else if (0xa0 <=? tag) && (tag <=? 0xbf) then RString
  else if tag =? 0xc0 then RNil
  else if tag =? 0xc1 then RReserved
  else if tag =? 0xc2 then RFalse
  else if tag =? 0xc3 then RTrue
  else if (0xc4 <=? tag) && (tag <=? 0xc6) then RBinary
  else if (0xc7 <=? tag) && (tag <=? 0xc9) then RExt
  else if (0xca <=? tag) && (tag <=? 0xcb) then RFloat
  else if (0xcc <=? tag) && (tag <=? 0xcf) then RInteger
  else if (0xd0 <=? tag) && (tag <=? 0xd3) then RInteger
  else if (0xd4 <=? tag) && (tag <=? 0xd8) then RExt
  else if (0xd9 <=? tag) && (tag <=? 0xdb) then RString
  else if (0xdc <=? tag) && (tag <=? 0xdd) then RArray
  else if (0xde <=? tag) && (tag <=? 0xdf) then RMap
  else if (0xe0 <=? tag) && (tag <=? 0xff) then RInteger
  else RReserved.

(** [m] never raises the [Exception('Logic error')] of [_fail]. *)
Definition logic_safe {Src A : Type} (m : M Src A) : Prop :=
  ∀ fp, m fp ≠ Err LogicError.

Section Routines.

Context {Src : Type} `{!ByteSource Src}.
Variable ext_type_to_class : gmap Z ext_class.

(** What the table's category of a tag stands for in the decoder. *)
Definition run_routine (load : options → M Src value) (code : byte)
  (o : options) (r : routine) : M Src value :=
  match r with
  | RInteger => _unpack_integer code
  | RFloat => _unpack_float code
  | RNil => ret VNone
  | RFalse => ret (VBool false)
  | RTrue => ret (VBool true)
  | RString => _unpack_string code o
  | RBinary => _unpack_binary code
  | RArray => _unpack_array load code o
  | RMap => _unpack_map load code o
  | RExt => _unpack_ext ext_type_to_class code o
  | RReserved => raise ReservedCodeException
  end.

End Routines.

(** *** Frames and keys *)

(** How an encoded string lies in a buffer: the tag [c] was read, [buf]
    follows it; the payload comes right away when the tag carries the length
    in its low five bits, and after a big-endian length field of 1, 2 or 4
    bytes for the tags 0xd9, 0xda and 0xdb. *)
Inductive str_frame (c : byte) (payload rest : list byte)
  : list byte → Prop :=
| fixstr_frame :
    0xa0 ≤ ord c ≤ 0xbf →
    length payload = Z.to_nat (ord c - 0xa0) →
    str_frame c payload rest (payload ++ rest)
| strN_frame (lenfield : list byte) :
    0xd9 ≤ ord c ≤ 0xdb →
    length lenfield = Z.to_nat (2 ^ (ord c - 0xd9)) →
    length payload = Z.to_nat (be_unsigned lenfield) →
    str_frame c payload rest (lenfield ++ payload ++ rest).

(** How an encoded extension lies in a buffer after its tag [c]: for the five
    tags 0xd4 to 0xd8 the type byte and a payload of 1, 2, 4, 8 or 16 bytes;
    for 0xc7, 0xc8 and 0xc9 a big-endian length field of 1, 2 or 4 bytes
    first.  The type identifier is the type byte read as a signed number. *)
Inductive ext_frame (c : byte) (payload rest : list byte)
  : Z → list byte → Prop :=
| fixext_frame (t : byte) :
    0xd4 ≤ ord c ≤ 0xd8 →
    length payload = Z.to_nat (2 ^ (ord c - 0xd4)) →
    ext_frame c payload rest (be_signed [t]) (t :: payload ++ rest)
| extN_frame (lenfield : list byte) (t : byte) :
    0xc7 ≤ ord c ≤ 0xc9 →
    length lenfield = Z.to_nat (2 ^ (ord c - 0xc7)) →
    length payload = Z.to_nat (be_unsigned lenfield) →
    ext_frame c payload rest (be_signed [t])
      (lenfield ++ t :: payload ++ rest).

(** The key as [_unpack_map] looks it up and inserts it: a decoded list
    goes through [_deep_list_to_tuple], anything else stays as it is. *)
Definition map_key (k : value) : value :=
  if is_list k then _deep_list_to_tuple k else k.

(** The items of a dictionary, no key equal to an earlier one. *)
Inductive distinct_keys : list (value * value) → Prop :=
| distinct_nil : distinct_keys []
| distinct_snoc d k v :
    distinct_keys d → hashable k = true → dict_contains k d = false →
    distinct_keys (d ++ [(k, v)]).

(** What [_deep_list_to_tuple] makes hashable: lists, nested to any depth,
    of values that are hashable as they are. *)
Fixpoint list_of_hashables (v : value) : bool :=
  match v with
  | VList xs => forallb list_of_hashables xs
  | _ => hashable v
  end.


(** ** More vocabulary: frames, invariants and relations between runs *)

(** How an encoded byte string lies in a buffer after its tag [c]: a
    big-endian length field of 1, 2 or 4 bytes for the tags 0xc4, 0xc5 and
    0xc6, then the payload. *)
Inductive bin_frame (c : byte) (payload rest : list byte)
  : list byte → Prop :=
| binN_frame (lenfield : list byte) :
    0xc4 ≤ ord c ≤ 0xc6 →
    length lenfield = Z.to_nat (2 ^ (ord c - 0xc4)) →
    length payload = Z.to_nat (be_unsigned lenfield) →
    bin_frame c payload rest (lenfield ++ payload ++ rest).

(** Every run of [m] ends in a value that satisfies [Q] or in an exception
    that satisfies [E]. *)
Definition ensures {Src A : Type} (m : M Src A) (Q : A → Prop)
  (E : exn → Prop) : Prop :=
  ∀ fp, match m fp with
        | Ok (a, _) => Q a
        | Err e => E e
        end.

Definition is_container (v : value) : bool :=
  match v with
  | VList _ | VTuple _ | VDict _ _ => true
  | _ => false
  end.

(** [A] holds of [v] and of every value inside it: the elements of lists and
    tuples, the keys and the values of dictionaries. *)
Inductive everywhere (A : value → Prop) : value → Prop :=
| everywhere_list xs :
    A (VList xs) → Forall (everywhere A) xs → everywhere A (VList xs)
| everywhere_tuple xs :
    A (VTuple xs) → Forall (everywhere A) xs → everywhere A (VTuple xs)
| everywhere_dict ordered items :
    A (VDict ordered items) →
    Forall (λ kv, everywhere A kv.1 ∧ everywhere A kv.2) items →
    everywhere A (VDict ordered items)
| everywhere_leaf v :
    is_container v = false → A v → everywhere A v.

(** The exceptions that belong to the format. *)
Definition decode_error (e : exn) : Prop :=
  e = InsufficientDataException ∨ e = ReservedCodeException
  ∨ e = InvalidStringException ∨ e = UnhashableKeyException
  ∨ e = DuplicateKeyException.

(** The exceptions that come out of user code, or of its absence. *)
Definition callback_error (e : exn) : Prop :=
  e = NotImplementedError ∨ ∃ name, e = Raised name.

(** No handler in the options, no class in the registry. *)
Definition no_callbacks (ext_type_to_class : gmap Z ext_class)
  (o : options) : Prop :=
  ext_type_to_class = ∅ ∧ ext_handlers o = ∅.

(** What the handlers of the options and the [unpackb] methods of the
    registry return satisfies [P]. *)
Definition callbacks_return (P : value → Prop)
  (ext_type_to_class : gmap Z ext_class) (o : options) : Prop :=
  (∀ t handler x v,
     ext_handlers o !! t = Some handler → handler x = Returned v → P v)
  ∧ (∀ t cls f data v,
       ext_type_to_class !! t = Some cls → unpackb cls = Some f →
       f data = Returned v → P v).

(** How [load] may end: in an exception of the format, in one out of user
    code when there is user code, or at the depth bound of the model. *)
Definition allowed_error (ext_type_to_class : gmap Z ext_class)
  (o : options) (e : exn) : Prop :=
  decode_error e ∨ e = OutOfFuel
  ∨ (callback_error e ∧ ¬ no_callbacks ext_type_to_class o).

(** The size [struct.calcsize] gives for the integer formats. *)
Definition int_size (fmt : string) : option nat :=
  if String.eqb fmt "B" then Some 1%nat
  else if String.eqb fmt ">H" then Some 2%nat
  else if String.eqb fmt ">I" then Some 4%nat
  else if String.eqb fmt ">Q" then Some 8%nat
  else if String.eqb fmt "b" then Some 1%nat
  else if String.eqb fmt ">h" then Some 2%nat
  else if String.eqb fmt ">i" then Some 4%nat
  else if String.eqb fmt ">q" then Some 8%nat
  else None.

(** An integer that fits 64 bits, signed or unsigned. *)
Definition int64 (v : value) : Prop :=
  ∃ z, v = VInt z ∧ - 2 ^ 63 ≤ z < 2 ^ 64.

(** A dictionary as [_unpack_map] builds it under the options [o]: of the
    type [use_ordered_dict] selects, its keys hashable and no key equal to
    an earlier one. *)
Definition sound_dict (o : options) (v : value) : Prop :=
  match v with
  | VDict ordered items =>
      ordered = use_ordered_dict o ∧ distinct_keys items
  | _ => True
  end.

Definition int_in_range (v : value) : Prop :=
  match v with
  | VInt z => - 2 ^ 63 ≤ z < 2 ^ 64
  | _ => True
  end.

Definition ext_type_in_range (v : value) : Prop :=
  match v with
  | VExt t _ => -128 ≤ t ≤ 127
  | _ => True
  end.

(** The head of an encoded array of [n] elements: the tag [c] with [n] in
    its low four bits, or the tag 0xdc or 0xdd and a big-endian count of 2
    or 4 bytes. *)
Inductive array_header (n : nat) (c : byte) : list byte → Prop :=
| fixarray_header :
    0x90 ≤ ord c ≤ 0x9f → n = Z.to_nat (ord c - 0x90) →
    array_header n c []
| arrayN_header (count : list byte) :
    0xdc ≤ ord c ≤ 0xdd →
    length count = Z.to_nat (2 ^ (ord c - 0xdb)) →
    n = Z.to_nat (be_unsigned count) →
    array_header n c count.

(** The head of an encoded map of [n] entries: the tag [c] with [n] in its
    low four bits, or the tag 0xde or 0xdf and a big-endian count of 2 or 4
    bytes. *)
Inductive map_header (n : nat) (c : byte) : list byte → Prop :=
| fixmap_header :
    0x80 ≤ ord c ≤ 0x8f → n = Z.to_nat (ord c - 0x80) →
    map_header n c []
| mapN_header (count : list byte) :
    0xde ≤ ord c ≤ 0xdf →
    length count = Z.to_nat (2 ^ (ord c - 0xdd)) →
    n = Z.to_nat (be_unsigned count) →
    map_header n c count.

(** The items a map gets from decoded entries: each key as [_unpack_map]
    inserts it. *)
Definition keyed (entries : list (value * value)) : list (value * value) :=
  map (λ kv, (map_key kv.1, kv.2)) entries.

(** The bytes of entries, each a key followed by its value. *)
Definition entry_bytes (encoded : list (list byte * list byte)) : list byte :=
  concat (map (λ kv, kv.1 ++ kv.2) encoded).

(** The stream [s] cut into the non-empty chunks [cs]. *)
Definition chunks_of (cs : list (list byte)) (s : list byte) : Prop :=
  Forall (λ c, c ≠ []) cs ∧ concat cs = s.

(** [m1] over a chunked transport and [m2] over a buffer end alike: the same
    value with the same bytes left, or the same exception. *)
Definition same_run {A : Type} (m1 : M (list (list byte)) A)
  (m2 : M (list byte) A) : Prop :=
  ∀ cs s, chunks_of cs s →
    match m1 cs, m2 s with
    | Ok (a1, cs'), Ok (a2, s') => a1 = a2 ∧ chunks_of cs' s'
    | Err e1, Err e2 => e1 = e2
    | _, _ => False
    end.

(** [m'] does whatever [m] does, wherever [m] does not raise [e]. *)
Definition agree_unless {Src A : Type} (e : exn) (m m' : M Src A) : Prop :=
  ∀ fp, m fp ≠ Err e → m' fp = m fp.

(** The options with [allow_invalid_utf8] set. *)
Definition permissive (o : options) : options :=
  {| use_tuple := use_tuple o;
     use_ordered_dict := use_ordered_dict o;
     allow_invalid_utf8 := true;
     ext_handlers := ext_handlers o |}.

(** Two runs over the same source end alike up to [R]: values related by
    [R] with the source left in the same state, or the same exception. *)
Definition related {Src A B : Type} (R : A → B → Prop) (m : M Src A)
  (m' : M Src B) : Prop :=
  ∀ fp, match m fp, m' fp with
        | Ok (a, f), Ok (b, f') => R a b ∧ f = f'
        | Err e, Err e' => e = e'
        | _, _ => False
        end.

(** The options with [use_ordered_dict] set to [b]. *)
Definition ordered_as (b : bool) (o : options) : options :=
  {| use_tuple := use_tuple o;
     use_ordered_dict := b;
     allow_invalid_utf8 := allow_invalid_utf8 o;
     ext_handlers := ext_handlers o |}.

(** [v] with every dictionary in it, at any depth, made ordered ([b] true)
    or plain ([b] false).  Keys are hashable and hold no dictionary. *)
Fixpoint with_ordered (b : bool) (v : value) : value :=
  match v with
  | VList xs => VList (map (with_ordered b) xs)
  | VTuple xs => VTuple (map (with_ordered b) xs)
  | VDict _ items =>
      VDict b (map (λ kv, match kv with
                          | (k, x) => (k, with_ordered b x)
                          end) items)
  | _ => v
  end.

(** The options with [use_tuple] set. *)
Definition with_tuples (o : options) : options :=
  {| use_tuple := true;
     use_ordered_dict := use_ordered_dict o;
     allow_invalid_utf8 := allow_invalid_utf8 o;
     ext_handlers := ext_handlers o |}.

(** [v] with every list in it made a tuple, at any depth, the values of
    dictionaries included.  Keys are hashable and hold no list. *)
Fixpoint tuplify (v : value) : value :=
  match v with
  | VList xs => VTuple (map tuplify xs)
  | VTuple xs => VTuple (map tuplify xs)
  | VDict ordered items =>
      VDict ordered (map (λ kv, match kv with
                                | (k, x) => (k, tuplify x)
                                end) items)
  | _ => v
  end.

(** The values [load] returns without [use_tuple]: lists, nested to any
    depth, of dictionaries and of values that hold no list. *)
Inductive settled : value → Prop :=
| settled_list xs : Forall settled xs → settled (VList xs)
| settled_dict ordered items : settled (VDict ordered items)
| settled_other v : is_list v = false → tuplify v = v → settled v.

(** * Theorems *)

(** ** The scenarios of the specification *)

Example scenario_map :
  loads ∅ (VBytes [x81; xa1; x61; x01]) default_options
  = Ok (VDict false [(VStr [0x61], VInt 1)]).
Proof. vm_compute. reflexivity. Qed.

Example scenario_array :
  loads ∅ (VBytes [x92; x01; x02]) default_options
  = Ok (VList [VInt 1; VInt 2]).
Proof. vm_compute. reflexivity. Qed.

Example scenario_empty_str :
  loads ∅ (VBytes [xd9; x00]) default_options = Ok (VStr []).
Proof. vm_compute. reflexivity. Qed.

Example scenario_reserved :
  loads ∅ (VBytes [xc1]) default_options = Err ReservedCodeException.
Proof. vm_compute. reflexivity. Qed.

Example format_of_uint16 :
  strip (py_slice "B >H>I>Qb >h>i>q" 2 4) = ">H"%string.
Proof. reflexivity. Qed.

Example format_of_int8 :
  strip (py_slice "B >H>I>Qb >h>i>q" 8 10) = "b"%string.
Proof. reflexivity. Qed.

Example slice_past_the_end :
  py_slice "B >H>I>Qb >h>i>q" 16 18 = ""%string.
Proof. reflexivity. Qed.

(** The sub-decoders do reach [_fail] on tags that [load] never hands
    them. *)
Example float_decoder_rejects_other_tags :
  _unpack_float x00 [x00; x00; x00; x00] = Err LogicError.
Proof. reflexivity. Qed.

Example string_decoder_rejects_other_tags :
  _unpack_string xc4 default_options [x00] = Err LogicError.
Proof. reflexivity. Qed.

Example scenario_short_array :
  loads ∅ (VBytes [x93; x01; x02]) default_options
  = Err InsufficientDataException.
Proof. vm_compute. reflexivity. Qed.

(** ** The exact reader *)

Section ReadExact.

Context {Src : Type} `{!ByteSource Src}.

Lemma read_loop_fuel (fuel n : nat) (data : list byte) (fp : Src) :
  (n ≤ length data + fuel)%nat →
  _read_loop fuel n data fp ≠ Err OutOfFuel.
Proof.
  revert data fp. induction fuel as [|fuel IH]; intros data fp Hle; simpl.
  - destruct (Nat.ltb_spec (length data) n); [lia | discriminate].
  - destruct (Nat.ltb_spec (length data) n); [| discriminate].
    destruct (read fp (n - length data)) as [chunk fp'].
    destruct (Nat.eqb_spec (length chunk) 0); [discriminate |].
    apply IH. rewrite length_app. lia.
Qed.

Lemma read_except_fuel (n : nat) (fp : Src) :
  _read_except n fp ≠ Err OutOfFuel.
Proof.
  unfold _read_except. destruct (n =? 0)%nat; [discriminate |].
  destruct (read fp n) as [data fp'].
  destruct (length data =? 0)%nat; [discriminate |].
  apply read_loop_fuel. lia.
Qed.

Lemma read_loop_outcome `{!LawfulSource Src} (fuel n : nat)
  (data : list byte) (fp : Src) :
  (length data ≤ n)%nat →
  match _read_loop fuel n data fp with
  | Ok (out, _) => length out = n ∧ ∃ more, out = data ++ more
  | Err e => e = InsufficientDataException ∨ e = OutOfFuel
  end.
Proof.
  revert data fp. induction fuel as [|fuel IH]; intros data fp Hle; simpl.
  - destruct (Nat.ltb_spec (length data) n); [by right |].
    split; [lia |]. exists []. by rewrite app_nil_r.
  - destruct (Nat.ltb_spec (length data) n) as [Hlt|Hge].
    + pose proof (read_at_most fp (n - length data)%nat) as Hmost.
      destruct (read fp (n - length data)) as [chunk fp']; simpl in Hmost.
      destruct (Nat.eqb_spec (length chunk) 0); [by left |].
      specialize (IH (data ++ chunk) fp').
      rewrite length_app in IH. specialize (IH ltac:(lia)).
      destruct (_read_loop fuel n (data ++ chunk) fp') as [[out fp'']|e];
        [| exact IH].
      destruct IH as [Hlen [more ->]]. split; [exact Hlen |].
      exists (chunk ++ more). by rewrite app_assoc.
    + split; [lia |]. exists []. by rewrite app_nil_r.
Qed.

(** Either exactly [n] bytes or [InsufficientDataException]. *)
Lemma read_except_outcome `{!LawfulSource Src} (n : nat) (fp : Src) :
  (∃ data fp', _read_except n fp = Ok (data, fp') ∧ length data = n)
  ∨ _read_except n fp = Err InsufficientDataException.
Proof.
  pose proof (read_except_fuel n fp) as Hfuel. revert Hfuel.
  unfold _read_except. destruct (Nat.eqb_spec n 0) as [->|Hn].
  { intros _. left. by exists [], fp. }
  pose proof (read_at_most fp n) as Hmost.
  destruct (read fp n) as [data fp']; simpl in Hmost.
  destruct (length data =? 0)%nat; [by right |].
  pose proof (read_loop_outcome n n data fp' Hmost) as Hout.
  destruct (_read_loop n n data fp') as [[out fp'']|e].
  - intros _. left. exists out, fp''. by destruct Hout.
  - intros Hne. right. destruct Hout as [->| ->]; [done | by destruct Hne].
Qed.

Lemma read_except_zero (fp : Src) : _read_except 0 fp = Ok ([], fp).
Proof. reflexivity. Qed.

Lemma read_except_nothing (n : nat) (fp : Src) :
  n ≠ 0%nat → (read fp n).1 = [] →
  _read_except n fp = Err InsufficientDataException.
Proof.
  intros Hn Hempty. unfold _read_except.
  destruct (Nat.eqb_spec n 0); [done |].
  destruct (read fp n) as [data fp']; simpl in Hempty. by subst data.
Qed.

Lemma read_loop_starved (fuel n : nat) (data : list byte) (fp : Src) :
  (length data < n)%nat → (n ≤ length data + fuel)%nat →
  (read fp (n - length data)).1 = [] →
  _read_loop fuel n data fp = Err InsufficientDataException.
Proof.
  intros Hlt Hfuel Hempty. destruct fuel as [|fuel]; [lia |]. simpl.
  destruct (Nat.ltb_spec (length data) n); [| lia].
  destruct (read fp (n - length data)) as [chunk fp']; simpl in Hempty.
  by subst chunk.
Qed.

Lemma read_loop_done (fuel n : nat) (data : list byte) (fp : Src) :
  (n ≤ length data)%nat → _read_loop fuel n data fp = Ok (data, fp).
Proof.
  intros Hle.
  destruct fuel; simpl; destruct (Nat.ltb_spec (length data) n);
    (lia || reflexivity).
Qed.

(** One more turn of the loop: a non-empty chunk is appended. *)
Lemma read_loop_step (fuel n : nat) (data chunk : list byte) (fp fp' : Src) :
  (length data < n)%nat →
  read fp (n - length data) = (chunk, fp') → chunk ≠ [] →
  _read_loop (S fuel) n data fp = _read_loop fuel n (data ++ chunk) fp'.
Proof.
  intros Hlt Hread Hne. simpl.
  destruct (Nat.ltb_spec (length data) n); [| lia].
  rewrite Hread. destruct chunk; [done | reflexivity].
Qed.

(** The loop does not depend on the fuel it is given beyond what it needs. *)
Lemma read_loop_more_fuel (fuel fuel' n : nat) (data : list byte) (fp : Src) :
  (n ≤ length data + fuel)%nat → (fuel ≤ fuel')%nat →
  _read_loop fuel' n data fp = _read_loop fuel n data fp.
Proof.
  revert fuel' data fp.
  induction fuel as [|fuel IH]; intros fuel' data fp Hle Hfuel.
  - destruct fuel'; simpl;
      destruct (Nat.ltb_spec (length data) n); (lia || reflexivity).
  - destruct fuel' as [|fuel']; [lia |]. simpl.
    destruct (Nat.ltb_spec (length data) n); [| reflexivity].
    destruct (read fp (n - length data)) as [chunk fp'].
    destruct (Nat.eqb_spec (length chunk) 0); [reflexivity |].
    apply IH; [rewrite length_app |]; lia.
Qed.

End ReadExact.

Global Instance BytesIO_lawful : LawfulSource (list byte).
Proof. intros s n. unfold read, BytesIO. simpl. rewrite length_take. lia. Qed.

Global Instance Chunked_lawful : LawfulSource (list (list byte)).
Proof.
  intros [|c rest] n; unfold read, Chunked; simpl; [lia |].
  destruct (Nat.leb_spec (length c) n); simpl; [lia |].
  rewrite length_take. lia.
Qed.

(** On a buffer the exact reader is [take]/[drop], or fails when the buffer
    is too short. *)
Lemma read_except_BytesIO (n : nat) (s : list byte) :
  _read_except n s
  = if (n <=? length s)%nat then Ok (take n s, drop n s)
    else Err InsufficientDataException.
Proof.
  unfold _read_except. destruct (Nat.eqb_spec n 0) as [->|Hn].
  { simpl. by rewrite take_0, drop_0. }
  unfold read, BytesIO.
  destruct (Nat.eqb_spec (length (take n s)) 0) as [Hz|Hnz].
  - rewrite length_take in Hz.
    destruct (Nat.leb_spec n (length s)); [lia | reflexivity].
  - rewrite length_take in Hnz.
    destruct (Nat.leb_spec n (length s)) as [Hle|Hgt].
    + destruct n as [|n]; [done |]. simpl _read_loop.
      destruct (Nat.ltb_spec (length (take (S n) s)) (S n)) as [Hlt|_];
        [rewrite length_take in Hlt; lia | reflexivity].
    + apply read_loop_starved.
      * rewrite length_take. lia.
      * lia.
      * unfold read. simpl. rewrite drop_ge by lia. by rewrite take_nil.
Qed.

(** The first read is one more turn of the same loop. *)
Lemma read_except_as_loop {Src : Type} `{!ByteSource Src} (n : nat) (fp : Src) :
  n ≠ 0%nat → _read_except n fp = _read_loop (S n) n [] fp.
Proof.
  intros Hn. unfold _read_except. simpl.
  destruct (Nat.eqb_spec n 0); [done |].
  destruct (Nat.ltb_spec 0 n); [| lia].
  rewrite Nat.sub_0_r. by destruct (read fp n).
Qed.

(** *** A chunked transport *)

Lemma read_chunked_cons (c : list byte) (rest : list (list byte)) (n : nat) :
  read (c :: rest) n
  = if (length c <=? n)%nat then (c, rest) else (take n c, drop n c :: rest).
Proof. reflexivity. Qed.

Lemma chunked_loop_exact (fuel n : nat) (data : list byte)
  (cs : list (list byte)) :
  (n ≤ length data + fuel)%nat →
  Forall (λ c, c ≠ []) cs →
  (n ≤ length data + length (concat cs))%nat →
  (length data ≤ n)%nat →
  ∃ rest, _read_loop fuel n data cs
          = Ok (data ++ take (n - length data) (concat cs), rest)
          ∧ concat rest = drop (n - length data) (concat cs).
Proof.
  revert data cs.
  induction fuel as [|fuel IH]; intros data cs Hfuel Hne Hall Hle.
  - exists cs. simpl. destruct (Nat.ltb_spec (length data) n); [lia |].
    replace (n - length data)%nat with 0%nat by lia.
    by rewrite take_0, drop_0, app_nil_r.
  - simpl. destruct (Nat.ltb_spec (length data) n) as [Hlt|Hge].
    2:{ exists cs. replace (n - length data)%nat with 0%nat by lia.
        by rewrite take_0, drop_0, app_nil_r. }
    destruct cs as [|c rest]; [simpl in Hall; lia |].
    inversion Hne as [|? ? Hc Hrest]; subst.
    rewrite read_chunked_cons. simpl in Hall. rewrite length_app in Hall.
    assert (length c ≠ 0%nat) as Hlen by (by destruct c).
    destruct (Nat.leb_spec (length c) (n - length data)) as [Hfit|Hbig];
      cbv beta iota.
    + destruct (Nat.eqb_spec (length c) 0); [done |].
      destruct (IH (data ++ c) rest) as [rest' [Hrun Hrest']];
        [rewrite length_app; lia | done | rewrite length_app; lia
        | rewrite length_app; lia |].
      rewrite length_app in Hrun, Hrest'.
      replace (n - (length data + length c))%nat
        with (n - length data - length c)%nat in Hrun, Hrest' by lia.
      exists rest'. rewrite Hrun. simpl concat.
      rewrite take_app, drop_app.
      replace (take (n - length data) c) with c by (by rewrite take_ge).
      replace (drop (n - length data) c) with (@nil byte)
        by (by rewrite drop_ge).
      rewrite <- app_assoc. done.
    + rewrite length_take.
      destruct (Nat.eqb_spec ((n - length data) `min` length c) 0); [lia |].
      destruct (IH (data ++ take (n - length data) c)
                  (drop (n - length data) c :: rest))
        as [rest' [Hrun Hrest']].
      * rewrite length_app, length_take. lia.
      * constructor; [| done]. intros Hnil.
        apply (f_equal length) in Hnil. rewrite length_drop in Hnil.
        simpl in Hnil. lia.
      * rewrite length_app, length_take. simpl. rewrite length_app. lia.
      * rewrite length_app, length_take. lia.
      * rewrite length_app, length_take in Hrun, Hrest'.
        replace (n - (length data + (n - length data) `min` length c))%nat
          with 0%nat in Hrun, Hrest' by lia.
        rewrite take_0, app_nil_r in Hrun. rewrite drop_0 in Hrest'.
        exists rest'. rewrite Hrun, Hrest'. simpl concat.
        rewrite take_app, drop_app.
        replace (n - length data - length c)%nat with 0%nat by lia.
        by rewrite take_0, drop_0, app_nil_r.
Qed.

Lemma chunked_loop_short (fuel n : nat) (data : list byte)
  (cs : list (list byte)) :
  (n ≤ length data + fuel)%nat →
  (length data + length (concat cs) < n)%nat →
  _read_loop fuel n data cs = Err InsufficientDataException.
Proof.
  revert fuel data. induction cs as [|c rest IH]; intros fuel data Hfuel Hlt.
  - apply read_loop_starved; [simpl in Hlt; lia | done | reflexivity].
  - simpl in Hlt. rewrite length_app in Hlt.
    destruct fuel as [|fuel]; [lia |]. simpl.
    destruct (Nat.ltb_spec (length data) n); [| lia].
    rewrite read_chunked_cons.
    destruct (Nat.leb_spec (length c) (n - length data)); [| lia].
    cbv beta iota.
    destruct (Nat.eqb_spec (length c) 0); [done |].
    apply IH; rewrite length_app; lia.
Qed.

(** However the stream is cut into non-empty chunks, the reader returns its
    first [n] bytes and leaves the rest pending. *)
Lemma chunked_read_exact (n : nat) (cs : list (list byte)) :
  Forall (λ c, c ≠ []) cs → (n ≤ length (concat cs))%nat →
  ∃ rest, _read_except n cs = Ok (take n (concat cs), rest)
          ∧ concat rest = drop n (concat cs).
Proof.
  intros Hne Hle. destruct (Nat.eq_dec n 0) as [->|Hn].
  { exists cs. by rewrite read_except_zero, take_0, drop_0. }
  rewrite read_except_as_loop by done.
  destruct (chunked_loop_exact (S n) n [] cs) as [rest [Hrun Hrest]];
    [simpl; lia | done | simpl; lia | simpl; lia |].
  change (length (@nil byte)) with 0%nat in Hrun, Hrest.
  rewrite Nat.sub_0_r in Hrun, Hrest.
  exists rest. split; [exact Hrun | exact Hrest].
Qed.

Lemma chunked_read_short (n : nat) (cs : list (list byte)) :
  (length (concat cs) < n)%nat →
  _read_except n cs = Err InsufficientDataException.
Proof.
  intros Hlt. rewrite read_except_as_loop by lia.
  apply chunked_loop_short; simpl; lia.
Qed.

(** C8. [_read_except] returns exactly [n] bytes or raises
    [InsufficientDataException]: it raises when the first read returns
    nothing and when a partial read is followed by an empty one; a second
    read that completes the request is appended to the first; over a stream
    cut into arbitrary non-empty chunks it returns the first [n] bytes of the
    stream whenever the stream has that many, and raises when the whole
    stream is shorter; and [_read_except(fp, 0)] returns the empty byte
    string and leaves the source as it was. *)
Theorem read_except_contract {Src : Type} `{!ByteSource Src}
  `{!LawfulSource Src} :
  (∀ (n : nat) (fp : Src),
     (∃ data fp', _read_except n fp = Ok (data, fp') ∧ length data = n)
     ∨ _read_except n fp = Err InsufficientDataException)
  ∧ (∀ (n : nat) (fp : Src),
       n ≠ 0%nat → (read fp n).1 = [] →
       _read_except n fp = Err InsufficientDataException)
  ∧ (∀ (n : nat) (fp fp1 : Src) (d1 : list byte),
       read fp n = (d1, fp1) → d1 ≠ [] → (length d1 < n)%nat →
       (read fp1 (n - length d1)).1 = [] →
       _read_except n fp = Err InsufficientDataException)
  ∧ (∀ (n : nat) (fp fp1 fp2 : Src) (d1 d2 : list byte),
       read fp n = (d1, fp1) → d1 ≠ [] → (length d1 < n)%nat →
       read fp1 (n - length d1) = (d2, fp2) →
       (length d1 + length d2)%nat = n →
       _read_except n fp = Ok (d1 ++ d2, fp2))
  ∧ (∀ (n : nat) (cs : list (list byte)),
       Forall (λ c, c ≠ []) cs → (n ≤ length (concat cs))%nat →
       ∃ rest, _read_except n cs = Ok (take n (concat cs), rest)
               ∧ concat rest = drop n (concat cs))
  ∧ (∀ (n : nat) (cs : list (list byte)),
       (length (concat cs) < n)%nat →
       _read_except n cs = Err InsufficientDataException)
  ∧ (∀ fp : Src, _read_except 0 fp = Ok ([], fp)).
Proof.
  split; [apply read_except_outcome |].
  split; [apply read_except_nothing |].
  split.
  { intros n fp fp1 d1 Hread Hne Hlt Hempty.
    rewrite read_except_as_loop by lia.
    rewrite (read_loop_step n n [] d1 fp fp1);
      [| simpl; lia | by rewrite Nat.sub_0_r | done].
    apply read_loop_starved; simpl; [done | lia | done]. }
  split.
  { intros n fp fp1 fp2 d1 d2 Hread Hne Hlt Hread2 Hsum.
    rewrite read_except_as_loop by lia.
    rewrite (read_loop_step n n [] d1 fp fp1);
      [| simpl; lia | by rewrite Nat.sub_0_r | done].
    simpl app. assert (d2 ≠ []) as Hne2 by (intros ->; simpl in Hsum; lia).
    destruct n as [|n]; [lia |].
    rewrite (read_loop_step n (S n) d1 d2 fp1 fp2); [| done | done | done].
    apply read_loop_done. rewrite length_app. lia. }
  split; [apply chunked_read_exact |].
  split; [apply chunked_read_short | apply read_except_zero].
Qed.

(** ** Decoding from a buffer: what a successful run consumed *)

Create HintDb decoder discriminated.

Section Streaming.

Context {A B : Type}.

Lemma streaming_ret (a : A) : streaming (ret a).
Proof.
  intros s a' r [= <- <-]. exists []. split; [done |]. split; [done |].
  intros p q Hpq Hq. symmetry in Hpq. apply app_eq_nil in Hpq as [_ ->]. done.
Qed.

Lemma streaming_raise (e : exn) : streaming (@raise (list byte) A e).
Proof. intros s a r [=]. Qed.

Lemma streaming_lift (x : result A) : streaming (lift x).
Proof.
  destruct x as [a|e]; [apply streaming_ret | apply streaming_raise].
Qed.

Lemma streaming_remainder (m : M (list byte) A) s a r :
  streaming m → m s = Ok (a, r) → (length r ≤ length s)%nat.
Proof.
  intros Hm Hrun. destruct (Hm _ _ _ Hrun) as [c [-> _]].
  rewrite length_app. lia.
Qed.

Lemma streaming_bind (m : M (list byte) A) (k : A → M (list byte) B) :
  streaming m → (∀ a, streaming (k a)) → streaming (bind m k).
Proof.
  intros Hm Hk s b r. unfold bind at 1.
  destruct (m s) as [[a r1]|e] eqn:Hrun; [| done]. intros Hrun2.
  destruct (Hm _ _ _ Hrun) as [c1 [-> [Hext1 Hpre1]]].
  destruct (Hk a _ _ _ Hrun2) as [c2 [-> [Hext2 Hpre2]]].
  exists (c1 ++ c2). split; [by rewrite app_assoc |]. split.
  - intros t. unfold bind. by rewrite <- app_assoc, Hext1, Hext2.
  - intros p q Hpq Hq. unfold bind.
    apply app_eq_inv in Hpq as [[j [-> ->]]|[j [-> ->]]].
    + destruct j as [|x j].
      * specialize (Hext1 []). rewrite !app_nil_r in Hext1. rewrite Hext1.
        by apply (Hpre2 [] c2).
      * by rewrite (Hpre1 p (x :: j)).
    + rewrite Hext1. by apply (Hpre2 j q).
Qed.

Lemma bounded_ret (L : nat) (a : A) : bounded L (@ret (list byte) A a).
Proof. intros s _ [=]. Qed.

Lemma bounded_raise (L : nat) (e : exn) :
  e ≠ OutOfFuel → bounded L (@raise (list byte) A e).
Proof. intros He s _ [=]. done. Qed.

Lemma bounded_lift (L : nat) (x : result A) :
  x ≠ Err OutOfFuel → bounded L (@lift (list byte) A x).
Proof. intros Hx s _. unfold lift. destruct x; [done | congruence]. Qed.

Lemma bounded_bind (L : nat) (m : M (list byte) A)
  (k : A → M (list byte) B) :
  streaming m → bounded L m → (∀ a, bounded L (k a)) → bounded L (bind m k).
Proof.
  intros Hs Hm Hk s Hlen. unfold bind.
  destruct (m s) as [[a r]|e] eqn:Hrun.
  - apply Hk. pose proof (streaming_remainder _ _ _ _ Hs Hrun). lia.
  - intros [= ->]. by apply (Hm s Hlen).
Qed.

End Streaming.

Lemma streaming_read_except (n : nat) : streaming (_read_except n).
Proof.
  intros s a r. rewrite read_except_BytesIO.
  destruct (Nat.leb_spec n (length s)) as [Hle|]; [| done].
  intros [= <- <-]. exists (take n s).
  split; [by rewrite take_drop |]. split.
  - intros t. rewrite read_except_BytesIO, length_app, length_take.
    destruct (Nat.leb_spec n (n `min` length s + length t)); [| lia].
    rewrite take_app_length', drop_app_length'; [done | |];
      rewrite length_take; lia.
  - intros p q Hpq Hq. rewrite read_except_BytesIO.
    apply (f_equal length) in Hpq. rewrite length_take, length_app in Hpq.
    assert (length q ≠ 0%nat) by (by destruct q).
    destruct (Nat.leb_spec n (length p)); [lia | done].
Qed.

Lemma bounded_read_except (L n : nat) : bounded L (_read_except n).
Proof. intros s _. apply read_except_fuel. Qed.

Lemma struct_unpack_fuel (fmt : string) (data : list byte) :
  struct_unpack fmt data ≠ Err OutOfFuel.
Proof.
  unfold struct_unpack.
  repeat match goal with
         | |- context [if ?c then _ else _] => destruct c
         end; discriminate.
Qed.

Lemma streaming_re0 (s : string) (n : nat) : streaming (_re0 s n).
Proof.
  apply streaming_bind; [apply streaming_read_except |].
  intros data. apply streaming_lift.
Qed.

Lemma bounded_re0 (L : nat) (s : string) (n : nat) : bounded L (_re0 s n).
Proof.
  apply bounded_bind;
    [apply streaming_read_except | apply bounded_read_except |].
  intros data. apply bounded_lift, struct_unpack_fuel.
Qed.

Lemma streaming_as_int (v : value) : streaming (as_int v).
Proof. destruct v; first [apply streaming_ret | apply streaming_raise]. Qed.

Lemma bounded_as_int (L : nat) (v : value) : bounded L (as_int v).
Proof.
  destruct v; simpl; first [apply bounded_ret | by apply bounded_raise].
Qed.

#[export] Hint Resolve streaming_ret streaming_raise streaming_lift
  streaming_read_except streaming_re0 streaming_as_int
  bounded_ret bounded_read_except bounded_re0 bounded_as_int : decoder.
#[export] Hint Extern 1 (bounded _ (raise _)) =>
  (apply bounded_raise; discriminate) : decoder.
#[export] Hint Extern 1 (bounded _ (lift (struct_unpack _ _))) =>
  (apply bounded_lift, struct_unpack_fuel) : decoder.

(** One step through the control structure of a decoder: a bind, a
    conditional or a case analysis. *)
Ltac decoder_step :=
  match goal with
  | |- streaming (bind _ _) => apply streaming_bind; [| intros ?]
  | |- bounded _ (bind _ _) => apply bounded_bind; [| | intros ?]
  | |- streaming _fail => apply streaming_raise
  | |- bounded _ _fail => apply bounded_raise; discriminate
  | |- streaming (match (if ?c then _ else _) with _ => _ end) => destruct c
  | |- bounded _ (match (if ?c then _ else _) with _ => _ end) => destruct c
  | |- streaming (if ?c then _ else _) => destruct c
  | |- bounded _ (if ?c then _ else _) => destruct c
  | |- streaming (match ?x with _ => _ end) => destruct x
  | |- bounded _ (match ?x with _ => _ end) => destruct x
  end.

Ltac decoder_auto := cbv zeta; repeat decoder_step; auto with decoder.

Section DecoderStreaming.

Variable ext_type_to_class : gmap Z ext_class.

Lemma streaming_unpack_integer c : streaming (_unpack_integer c).
Proof. unfold _unpack_integer. decoder_auto. Qed.

Lemma bounded_unpack_integer L c : bounded L (_unpack_integer c).
Proof. unfold _unpack_integer. decoder_auto. Qed.

Lemma streaming_unpack_float c : streaming (_unpack_float c).
Proof. unfold _unpack_float. decoder_auto. Qed.

Lemma bounded_unpack_float L c : bounded L (_unpack_float c).
Proof. unfold _unpack_float. decoder_auto. Qed.

Lemma streaming_unpack_string c o : streaming (_unpack_string c o).
Proof. unfold _unpack_string. decoder_auto. Qed.

Lemma bounded_unpack_string L c o : bounded L (_unpack_string c o).
Proof. unfold _unpack_string. decoder_auto. Qed.

Lemma streaming_unpack_binary c : streaming (_unpack_binary c).
Proof. unfold _unpack_binary. decoder_auto. Qed.

Lemma bounded_unpack_binary L c : bounded L (_unpack_binary c).
Proof. unfold _unpack_binary. decoder_auto. Qed.

Lemma streaming_ext_resolve o t d :
  streaming (ext_resolve ext_type_to_class o t d).
Proof. unfold ext_resolve. decoder_auto. Qed.

Lemma bounded_ext_resolve L o t d :
  bounded L (ext_resolve ext_type_to_class o t d).
Proof. unfold ext_resolve. decoder_auto. Qed.

Lemma streaming_unpack_ext c o :
  streaming (_unpack_ext ext_type_to_class c o).
Proof.
  unfold _unpack_ext. pose proof streaming_ext_resolve. decoder_auto.
Qed.

Lemma bounded_unpack_ext L c o :
  bounded L (_unpack_ext ext_type_to_class c o).
Proof.
  unfold _unpack_ext.
  pose proof streaming_ext_resolve. pose proof bounded_ext_resolve.
  decoder_auto.
Qed.

Lemma streaming_unpack_array_gen (load : M (list byte) value) (n : nat) :
  streaming load → streaming (_unpack_array_gen load n).
Proof. intros Hload. induction n; simpl; decoder_auto. Qed.

Lemma bounded_unpack_array_gen L (load : M (list byte) value) (n : nat) :
  streaming load → bounded L load → bounded L (_unpack_array_gen load n).
Proof.
  intros Hs Hb. pose proof (streaming_unpack_array_gen load).
  induction n; simpl; decoder_auto.
Qed.

Lemma streaming_unpack_map_for (load : M (list byte) value) (n : nat) d :
  streaming load → streaming (_unpack_map_for load n d).
Proof.
  intros Hload. revert d. induction n; intros d; simpl; [decoder_auto |].
  unfold dict_setitem. decoder_auto.
Qed.

Lemma bounded_unpack_map_for L (load : M (list byte) value) (n : nat) d :
  streaming load → bounded L load → bounded L (_unpack_map_for load n d).
Proof.
  intros Hs Hb. revert d. induction n; intros d; simpl; [decoder_auto |].
  unfold dict_setitem. decoder_auto.
Qed.

Lemma streaming_unpack_array load c o :
  (∀ o, streaming (load o)) → streaming (_unpack_array load c o).
Proof.
  intros Hload. unfold _unpack_array.
  pose proof (streaming_unpack_array_gen (load o)). decoder_auto.
Qed.

Lemma bounded_unpack_array L load c o :
  (∀ o, streaming (load o)) → (∀ o, bounded L (load o)) →
  bounded L (_unpack_array load c o).
Proof.
  intros Hs Hb. unfold _unpack_array.
  pose proof (streaming_unpack_array_gen (load o)).
  pose proof (bounded_unpack_array_gen L (load o)). decoder_auto.
Qed.

Lemma streaming_unpack_map load c o :
  (∀ o, streaming (load o)) → streaming (_unpack_map load c o).
Proof.
  intros Hload. unfold _unpack_map.
  pose proof (streaming_unpack_map_for (load o)). decoder_auto.
Qed.

Lemma bounded_unpack_map L load c o :
  (∀ o, streaming (load o)) → (∀ o, bounded L (load o)) →
  bounded L (_unpack_map load c o).
Proof.
  intros Hs Hb. unfold _unpack_map.
  pose proof (streaming_unpack_map_for (load o)).
  pose proof (bounded_unpack_map_for L (load o)). decoder_auto.
Qed.

End DecoderStreaming.

Section LoadStreaming.

Variable ext_type_to_class : gmap Z ext_class.

#[local] Hint Resolve streaming_unpack_integer bounded_unpack_integer
  streaming_unpack_float bounded_unpack_float
  streaming_unpack_string bounded_unpack_string
  streaming_unpack_binary bounded_unpack_binary
  streaming_unpack_ext bounded_unpack_ext
  streaming_unpack_array bounded_unpack_array
  streaming_unpack_map bounded_unpack_map : decoder.

Lemma streaming_load_body load o :
  (∀ o, streaming (load o)) →
  streaming (load_body ext_type_to_class load o).
Proof.
  intros Hload. unfold load_body.
  apply streaming_bind; [apply streaming_read_except |].
  intros [|c [|c' code]]; decoder_auto.
Qed.

Lemma streaming_load fuel o : streaming (load ext_type_to_class fuel o).
Proof.
  revert o. induction fuel as [|fuel IH]; intros o; simpl.
  - apply streaming_raise.
  - by apply streaming_load_body.
Qed.

Lemma bounded_load_body L load o :
  (∀ o, streaming (load o)) → (∀ o, bounded L (load o)) →
  bounded (S L) (load_body ext_type_to_class load o).
Proof.
  intros Hs Hb s Hlen. unfold load_body, bind.
  rewrite read_except_BytesIO.
  destruct s as [|c s]; [done |]. simpl in Hlen.
  change (1 <=? length (c :: s))%nat with true.
  change (take 1 (c :: s)) with [c]. change (drop 1 (c :: s)) with s.
  cbv beta iota zeta.
  match goal with
  | |- ?m s ≠ Err OutOfFuel =>
      cut (bounded L m); [intros Hm; apply Hm; lia |]
  end.
  decoder_auto.
Qed.

(** Every nested call of [load] has read at least its own tag byte: a depth
    above the length of the buffer is never exhausted. *)
Lemma load_enough_fuel fuel o : bounded fuel (load ext_type_to_class fuel o).
Proof.
  revert o. induction fuel as [|fuel IH]; intros o.
  - intros s Hlen. lia.
  - simpl. apply bounded_load_body; [apply streaming_load | apply IH].
Qed.

End LoadStreaming.

(** ** More fuel changes nothing *)

Section Agree.

Context {Src : Type} `{!ByteSource Src}.
Variable ext_type_to_class : gmap Z ext_class.

Lemma agree_refl {A} (m : M Src A) : agree m m.
Proof. by intros fp _. Qed.

Lemma agree_trans {A} (m1 m2 m3 : M Src A) :
  agree m1 m2 → agree m2 m3 → agree m1 m3.
Proof.
  intros H12 H23 fp Hfp. rewrite <- (H12 fp Hfp). apply H23.
  by rewrite (H12 fp Hfp).
Qed.

Lemma agree_bind {A B} (m m' : M Src A) (k k' : A → M Src B) :
  agree m m' → (∀ a, agree (k a) (k' a)) → agree (bind m k) (bind m' k').
Proof.
  intros Hm Hk fp. unfold bind. intros Hrun.
  rewrite (Hm fp); [| by intros Hoof; rewrite Hoof in Hrun].
  destruct (m fp) as [[a fp']|e]; [by apply Hk | done].
Qed.

Ltac agree_step :=
  match goal with
  | |- agree ?m ?m => apply agree_refl
  | |- agree (bind _ _) (bind _ _) => apply agree_bind; [| intros ?]
  | |- agree (match ?x with _ => _ end) (match ?x with _ => _ end) =>
      destruct x
  end.

Lemma agree_unpack_array_gen (load load' : M Src value) (n : nat) :
  agree load load' →
  agree (_unpack_array_gen load n) (_unpack_array_gen load' n).
Proof. intros Hload. induction n; simpl; repeat agree_step; done. Qed.

Lemma agree_unpack_map_for (load load' : M Src value) (n : nat) d :
  agree load load' →
  agree (_unpack_map_for load n d) (_unpack_map_for load' n d).
Proof.
  intros Hload. revert d.
  induction n; intros d; simpl; cbv zeta; repeat agree_step; done.
Qed.

Lemma agree_load_body (load load' : options → M Src value) o :
  (∀ o, agree (load o) (load' o)) →
  agree (load_body ext_type_to_class load o)
        (load_body ext_type_to_class load' o).
Proof.
  intros Hload. unfold load_body, _unpack_array, _unpack_map. cbv zeta.
  pose proof (agree_unpack_array_gen (load o) (load' o)).
  pose proof (agree_unpack_map_for (load o) (load' o)).
  repeat agree_step; auto.
Qed.

Lemma load_one_more_fuel fuel o :
  agree (load ext_type_to_class fuel o) (load ext_type_to_class (S fuel) o).
Proof.
  revert o. induction fuel as [|fuel IH]; intros o.
  - intros fp Hfp. by destruct Hfp.
  - change (agree (load_body ext_type_to_class (load ext_type_to_class fuel) o)
              (load_body ext_type_to_class
                 (load ext_type_to_class (S fuel)) o)).
    by apply agree_load_body.
Qed.

Lemma load_more_fuel fuel fuel' o :
  (fuel ≤ fuel')%nat →
  agree (load ext_type_to_class fuel o) (load ext_type_to_class fuel' o).
Proof.
  induction 1 as [|fuel' _ IH]; [apply agree_refl |].
  eapply agree_trans; [exact IH | apply load_one_more_fuel].
Qed.

End Agree.

(** On a buffer, any depth above its length gives what [loads] computes. *)
Lemma load_fuel_irrelevant (ext_type_to_class : gmap Z ext_class)
  (fuel : nat) (o : options) (s : list byte) :
  (length s < fuel)%nat →
  load ext_type_to_class fuel o s
  = load ext_type_to_class (S (length s)) o s.
Proof.
  intros Hlen.
  apply (load_more_fuel ext_type_to_class (S (length s)) fuel o); [lia |].
  apply load_enough_fuel. lia.
Qed.


(** ** Decoding a buffer *)

(** C9. A buffer that begins with the complete encoding of a value decodes
    to that value, whatever bytes follow it. *)
Theorem loads_ignores_trailing_bytes (ext_type_to_class : gmap Z ext_class)
  (o : options) (c t : list byte) (v : value) :
  encodes ext_type_to_class o c v →
  loads ext_type_to_class (VBytes (c ++ t)) o = Ok v.
Proof.
  unfold encodes, loads. intros Hc.
  destruct (streaming_load _ _ _ _ _ _ Hc) as [c' [Heq [Hext _]]].
  rewrite app_nil_r in Heq. subst c'.
  rewrite (load_more_fuel ext_type_to_class (S (length c))
             (S (length (c ++ t))) o); [by rewrite Hext | |].
  - rewrite length_app. lia.
  - by rewrite Hext.
Qed.

(** C2. Every strict prefix of the encoding of a value fails to decode, and
    fails with [InsufficientDataException]. *)
Theorem loads_truncated (ext_type_to_class : gmap Z ext_class)
  (o : options) (c p q : list byte) (v : value) :
  encodes ext_type_to_class o c v →
  c = p ++ q → q ≠ [] →
  loads ext_type_to_class (VBytes p) o = Err InsufficientDataException.
Proof.
  unfold encodes, loads. intros Hc Hpq Hq.
  destruct (streaming_load _ _ _ _ _ _ Hc) as [c' [Heq [_ Hpre]]].
  rewrite app_nil_r in Heq. subst c'.
  specialize (Hpre p q Hpq Hq).
  rewrite (load_more_fuel ext_type_to_class (S (length p))
             (S (length c)) o) in Hpre.
  - by rewrite Hpre.
  - subst c. rewrite length_app. lia.
  - apply load_enough_fuel. lia.
Qed.

(** ** The dispatcher *)

Section Dispatch.

Context {Src : Type} `{!ByteSource Src}.
Variable ext_type_to_class : gmap Z ext_class.

Lemma load_body_dispatch (load : options → M Src value) (o : options)
  (fp : Src) :
  load_body ext_type_to_class load o fp
  = match _read_except 1 fp with
    | Ok ([code], fp') => run_routine ext_type_to_class load code o (wire_table (ord code)) fp'
    | Ok (_, _) => Err TypeError
    | Err e => Err e
    end.
Proof.
  unfold load_body, bind.
  destruct (_read_except 1 fp) as [[[|code [|]] fp']|e]; try reflexivity.
  destruct code; reflexivity.
Qed.

Lemma safe_ret {A} (a : A) : logic_safe (@ret Src A a).
Proof. intros fp [=]. Qed.

Lemma safe_raise {A} (e : exn) :
  e ≠ LogicError → logic_safe (@raise Src A e).
Proof. intros He fp [=]. done. Qed.

Lemma safe_lift {A} (x : result A) :
  x ≠ Err LogicError → logic_safe (@lift Src A x).
Proof. intros Hx fp. unfold lift. destruct x; [done | congruence]. Qed.

Lemma safe_bind {A B} (m : M Src A) (k : A → M Src B) :
  logic_safe m → (∀ a, logic_safe (k a)) → logic_safe (bind m k).
Proof.
  intros Hm Hk fp. unfold bind.
  destruct (m fp) as [[a fp']|e] eqn:Hrun; [apply Hk |].
  intros [= ->]. by apply (Hm fp).
Qed.

Lemma read_loop_errors fuel n data (fp : Src) e :
  _read_loop fuel n data fp = Err e →
  e = InsufficientDataException ∨ e = OutOfFuel.
Proof.
  revert data fp. induction fuel as [|fuel IH]; intros data fp; simpl.
  - destruct (length data <? n)%nat; [| done]. intros [= <-]. by right.
  - destruct (length data <? n)%nat; [| done].
    destruct (read fp (n - length data)) as [chunk fp'].
    destruct (length chunk =? 0)%nat; [| apply IH]. intros [= <-]. by left.
Qed.

Lemma safe_read_except (n : nat) : logic_safe (_read_except (Src:=Src) n).
Proof.
  intros fp. unfold _read_except. destruct (n =? 0)%nat; [done |].
  destruct (read fp n) as [data fp'].
  destruct (length data =? 0)%nat; [done |].
  intros Hrun. by destruct (read_loop_errors _ _ _ _ _ Hrun).
Qed.

Lemma struct_unpack_safe (fmt : string) (data : list byte) :
  struct_unpack fmt data ≠ Err LogicError.
Proof.
  unfold struct_unpack.
  repeat match goal with
         | |- context [if ?c then _ else _] => destruct c
         end; discriminate.
Qed.

Lemma safe_re0 (s : string) (n : nat) : logic_safe (_re0 (Src:=Src) s n).
Proof.
  apply safe_bind; [apply safe_read_except |].
  intros data. apply safe_lift, struct_unpack_safe.
Qed.

Lemma safe_as_int (v : value) : logic_safe (@as_int Src v).
Proof.
  destruct v; simpl; first [apply safe_ret | by apply safe_raise].
Qed.

Lemma safe_ext_resolve o t d :
  logic_safe (ext_resolve (Src:=Src) ext_type_to_class o t d).
Proof.
  unfold ext_resolve.
  repeat match goal with
         | |- logic_safe (match ?x with _ => _ end) => destruct x
         end; first [apply safe_ret | by apply safe_raise].
Qed.

Lemma safe_unpack_array_gen (load : M Src value) (n : nat) :
  logic_safe load → logic_safe (_unpack_array_gen load n).
Proof.
  intros Hload. induction n; simpl; [apply safe_ret |].
  apply safe_bind; [done |]. intros v.
  apply safe_bind; [done |]. intros vs. apply safe_ret.
Qed.

Lemma safe_unpack_map_for (load : M Src value) (n : nat) d :
  logic_safe load → logic_safe (_unpack_map_for load n d).
Proof.
  intros Hload. revert d. induction n; intros d; simpl; [apply safe_ret |].
  apply safe_bind; [done |]. intros k. cbv zeta.
  destruct (py_hash _); [| by apply safe_raise].
  destruct (dict_contains _ _); [by apply safe_raise |].
  apply safe_bind; [done |]. intros v. unfold dict_setitem.
  destruct (hashable _); [apply IHn | by apply safe_raise].
Qed.

(** Reduce the tests on a concrete tag byte, then go through the binds. *)
Ltac safe_step :=
  match goal with
  | |- logic_safe (if ?c then _ else _) =>
      let b := eval vm_compute in c in
      match b with true => idtac | false => idtac end;
      change c with b; cbv beta iota
  | |- logic_safe (match ?x with _ => _ end) => destruct x
  | |- logic_safe (bind _ _) => apply safe_bind; [| intros ?]
  | |- logic_safe (ret _) => apply safe_ret
  | |- logic_safe (raise _) => apply safe_raise; discriminate
  | |- logic_safe (lift (struct_unpack _ _)) =>
      apply safe_lift, struct_unpack_safe
  | |- logic_safe (_re0 _ _) => apply safe_re0
  | |- logic_safe (_read_except _) => apply safe_read_except
  | |- logic_safe (as_int _) => apply safe_as_int
  | |- logic_safe (ext_resolve _ _ _ _) => apply safe_ext_resolve
  end.

Lemma safe_run_routine (load : options → M Src value) (code : byte)
  (o : options) :
  (∀ o, logic_safe (load o)) →
  logic_safe (run_routine ext_type_to_class load code o (wire_table (ord code))).
Proof.
  intros Hload.
  pose proof (safe_unpack_array_gen (load o) ) as Hgen.
  pose proof (safe_unpack_map_for (load o)) as Hfor.
  destruct code;
    match goal with
    | |- logic_safe (run_routine _ _ ?c _ ?r) =>
        let r' := eval vm_compute in r in change r with r'
    end;
    unfold run_routine, _unpack_integer, _unpack_float, _unpack_string,
      _unpack_binary, _unpack_array, _unpack_map, _unpack_ext;
    cbv zeta; repeat safe_step; auto.
Qed.

Lemma safe_load fuel o : logic_safe (load ext_type_to_class fuel o).
Proof.
  revert o. induction fuel as [|fuel IH]; intros o fp; simpl.
  - discriminate.
  - rewrite load_body_dispatch.
    pose proof (safe_read_except 1 fp) as Hread.
    destruct (_read_except 1 fp) as [[[|code [|]] fp']|e];
      [discriminate | | discriminate | congruence].
    by apply safe_run_routine.
Qed.

End Dispatch.

(** C1. [load] sends every tag byte to the decode routine that the
    wire-format table gives for it; 0xc1 is the only tag the table reserves,
    and it raises [ReservedCodeException]; and no run of [load], on any
    source, with any options and registry, ends in the
    [Exception('Logic error')] of [_fail]. *)
Theorem load_dispatch_total {Src : Type} `{!ByteSource Src}
  (ext_type_to_class : gmap Z ext_class) :
  (∀ (fuel : nat) (o : options) (fp : Src),
     load ext_type_to_class (S fuel) o fp
     = match _read_except 1 fp with
       | Ok ([code], fp') =>
           run_routine ext_type_to_class (load ext_type_to_class fuel)
             code o (wire_table (ord code)) fp'
       | Ok (_, _) => Err TypeError
       | Err e => Err e
       end)
  ∧ (∀ code : byte, wire_table (ord code) = RReserved → code = xc1)
  ∧ (∀ (o : options) (rest : list byte),
       loads ext_type_to_class (VBytes (xc1 :: rest)) o
       = Err ReservedCodeException)
  ∧ (∀ (fuel : nat) (o : options) (fp : Src),
       load ext_type_to_class fuel o fp ≠ Err LogicError).
Proof.
  split; [| split; [| split]].
  - intros fuel o fp. apply load_body_dispatch.
  - intros code. destruct code; vm_compute; congruence.
  - intros o rest. reflexivity.
  - intros fuel o. apply safe_load.
Qed.

(** ** The integer decoder *)

Lemma re0_BytesIO (fmt : string) (n : nat) (field rest : list byte) :
  length field = n →
  _re0 fmt n (field ++ rest) = lift (struct_unpack fmt field) rest.
Proof.
  intros Hlen. unfold _re0, bind. rewrite read_except_BytesIO.
  rewrite length_app.
  destruct (Nat.leb_spec n (length field + length rest)); [| lia].
  by rewrite take_app_length', drop_app_length'.
Qed.

Lemma be_fold_acc (bs : list byte) (acc : Z) :
  fold_left (λ acc b, acc * 256 + ord b) bs acc
  = acc * 256 ^ Z.of_nat (length bs)
    + fold_left (λ acc b, acc * 256 + ord b) bs 0.
Proof.
  revert acc. induction bs as [|x bs IH]; intros acc; [simpl; lia |].
  cbn [fold_left length]. rewrite IH, (IH (0 * 256 + ord x)).
  rewrite Nat2Z.inj_succ, Z.pow_succ_r by lia. ring.
Qed.

Lemma be_unsigned_app (a b : list byte) :
  be_unsigned (a ++ b)
  = be_unsigned a * 256 ^ Z.of_nat (length b) + be_unsigned b.
Proof. unfold be_unsigned. by rewrite fold_left_app, be_fold_acc. Qed.

Lemma ord_range (b : byte) : 0 ≤ ord b < 256.
Proof. destruct b; vm_compute; split; congruence. Qed.

(** An unsigned field of [w] bytes lies in [0, 2^(8w)). *)
Lemma be_unsigned_range (bs : list byte) :
  0 ≤ be_unsigned bs < 256 ^ Z.of_nat (length bs).
Proof.
  induction bs as [|x bs IH] using rev_ind; [unfold be_unsigned; simpl; lia |].
  rewrite be_unsigned_app, length_app. simpl length.
  change (be_unsigned [x]) with (0 * 256 + ord x).
  rewrite Nat2Z.inj_add, Z.pow_add_r by lia.
  pose proof (ord_range x). change (256 ^ Z.of_nat 1) with 256. nia.
Qed.

(** A signed field of [w] bytes is the two's-complement reading of the
    unsigned one, in [-2^(8w-1), 2^(8w-1)). *)
Lemma be_signed_range (bs : list byte) :
  bs ≠ [] →
  - 2 ^ (8 * Z.of_nat (length bs) - 1) ≤ be_signed bs
  < 2 ^ (8 * Z.of_nat (length bs) - 1)
  ∧ be_signed bs mod 2 ^ (8 * Z.of_nat (length bs)) = be_unsigned bs.
Proof.
  intros Hne. unfold be_signed. cbv zeta.
  pose proof (be_unsigned_range bs) as Hu.
  assert (0 < Z.of_nat (length bs)) as Hlen by (destruct bs; [done | simpl; lia]).
  set (w := 8 * Z.of_nat (length bs)) in *.
  replace (256 ^ Z.of_nat (length bs)) with (2 ^ w) in Hu
    by (unfold w; rewrite Z.pow_mul_r by lia; reflexivity).
  assert (2 ^ w = 2 * 2 ^ (w - 1)) as Hpow
    by (rewrite <- Z.pow_succ_r by lia; f_equal; lia).
  destruct (Z.testbit (be_unsigned bs) (w - 1)) eqn:Hbit.
  - assert (2 ^ (w - 1) ≤ be_unsigned bs) as Hge.
    { destruct (Z_lt_le_dec (be_unsigned bs) (2 ^ (w - 1))) as [Hlt|]; [| done].
      destruct (Z.eq_dec (be_unsigned bs) 0) as [Hz|Hnz].
      - rewrite Hz, Z.bits_0 in Hbit. done.
      - rewrite Z.bits_above_log2 in Hbit; [done | lia |].
        apply Z.log2_lt_pow2; lia. }
    split; [lia |].
    rewrite <- (Z.mod_add _ 1) by lia.
    rewrite Z.mod_small; lia.
  - assert (be_unsigned bs < 2 ^ (w - 1)) as Hlt.
    { destruct (Z_lt_le_dec (be_unsigned bs) (2 ^ (w - 1))) as [|Hge]; [done |].
      rewrite <- (Z.mod_small _ _ Hu) in Hbit.
      rewrite Z.mod_pow2_bits_low in Hbit by lia.
      assert (be_unsigned bs = (be_unsigned bs - 2 ^ (w - 1)) + 1 * 2 ^ (w - 1))
        as Hsplit by lia.
      rewrite Hsplit in Hbit.
      rewrite Z.add_comm, Z.add_nocarry_lxor in Hbit.
      - rewrite Z.lxor_spec, Z.mul_1_l, Z.pow2_bits_true in Hbit by lia.
        rewrite Z.bits_above_log2 in Hbit; [done | lia |].
        destruct (Z.eq_dec (be_unsigned bs - 2 ^ (w - 1)) 0) as [Hz|];
          [rewrite Hz; simpl; lia |].
        apply Z.log2_lt_pow2; lia.
      - rewrite Z.mul_1_l. apply Z.bits_inj'. intros i Hi.
        rewrite Z.land_spec, Z.bits_0.
        destruct (Z.eq_dec i (w - 1)) as [->|Hne'].
        + rewrite Z.pow2_bits_true by lia. rewrite andb_true_l.
          destruct (Z.eq_dec (be_unsigned bs - 2 ^ (w - 1)) 0) as [Hz|];
            [by rewrite Hz, Z.bits_0 |].
          apply Z.bits_above_log2; [lia |]. apply Z.log2_lt_pow2; lia.
        + rewrite Z.pow2_bits_false by lia. done. }
    split; [| apply Z.mod_small]; lia.
Qed.

(** Decide the tests whose outcome is fixed by a concrete tag byte. *)
Ltac decide_tests :=
  repeat match goal with
         | |- context [if ?c then _ else _] =>
             let b := eval vm_compute in c in
             match b with true => idtac | false => idtac end;
             change c with b; cbv beta iota
         end.

Ltac eval_re0_args :=
  match goal with
  | |- context [@_re0 ?S ?I ?f ?n] =>
      let f' := eval vm_compute in f in
      let n' := eval vm_compute in n in
      change (@_re0 S I f n) with (@_re0 S I f' n')
  end.

Ltac eval_rhs_in H :=
  match type of H with
  | _ = ?n => let n' := eval vm_compute in n in change n with n' in H
  end.

Lemma struct_unpack_sized (field : list byte) (n : nat) (v : value) :
  length field = n →
  (if (length field =? n)%nat then Ok v else @Err value StructError) = Ok v.
Proof. intros ->. by rewrite Nat.eqb_refl. Qed.

(** C3. [_unpack_integer] returns the encoded integer: a tag up to 0x7f is
    its own value, between 0 and 127; a tag from 0xe0 is the sign-extended
    value of its low five bits, between -32 and -1; the tags 0xcc to 0xcf
    read a big-endian unsigned field of 1, 2, 4 or 8 bytes and the tags 0xd0
    to 0xd3 a big-endian signed field of 1, 2, 4 or 8 bytes. *)
Theorem unpack_integer_exact {Src : Type} `{!ByteSource Src} :
  (∀ (c : byte) (fp : Src),
     ord c ≤ 0x7f →
     _unpack_integer c fp = Ok (VInt (ord c), fp) ∧ 0 ≤ ord c ≤ 127)
  ∧ (∀ (c : byte) (fp : Src),
       0xe0 ≤ ord c →
       _unpack_integer c fp = Ok (VInt (Z.land (ord c) 0x1f - 32), fp)
       ∧ -32 ≤ Z.land (ord c) 0x1f - 32 ≤ -1)
  ∧ (∀ (c : byte) (field rest : list byte),
       0xcc ≤ ord c ≤ 0xcf →
       length field = Z.to_nat (2 ^ (ord c - 0xcc)) →
       _unpack_integer c (field ++ rest) = Ok (VInt (be_unsigned field), rest))
  ∧ (∀ (c : byte) (field rest : list byte),
       0xd0 ≤ ord c ≤ 0xd3 →
       length field = Z.to_nat (2 ^ (ord c - 0xd0)) →
       _unpack_integer c (field ++ rest) = Ok (VInt (be_signed field), rest)).
Proof.
  split; [| split; [| split]].
  - intros c fp H. split; [| pose proof (ord_range c); lia].
    revert H. destruct c; unfold ord; simpl; intros H; try lia; reflexivity.
  - intros c fp H. split.
    + revert H. destruct c; unfold ord; simpl; intros H; try lia; reflexivity.
    + clear H. destruct c; vm_compute; split; congruence.
  - intros c field rest [Hlo Hhi] Hlen. revert Hlo Hhi Hlen.
    destruct c; unfold ord at 1 2; simpl Z.of_N; intros Hlo Hhi Hlen;
      try lia;
      eval_rhs_in Hlen; unfold _unpack_integer; cbv zeta; decide_tests;
      eval_re0_args; rewrite re0_BytesIO by exact Hlen;
      unfold struct_unpack, lift; decide_tests;
      by rewrite (struct_unpack_sized _ _ _ Hlen).
  - intros c field rest [Hlo Hhi] Hlen. revert Hlo Hhi Hlen.
    destruct c; unfold ord at 1 2; simpl Z.of_N; intros Hlo Hhi Hlen;
      try lia;
      eval_rhs_in Hlen; unfold _unpack_integer; cbv zeta; decide_tests;
      eval_re0_args; rewrite re0_BytesIO by exact Hlen;
      unfold struct_unpack, lift; decide_tests;
      by rewrite (struct_unpack_sized _ _ _ Hlen).
Qed.

(** ** The string decoder *)

Lemma read_except_app (n : nat) (payload rest : list byte) :
  length payload = n → _read_except n (payload ++ rest) = Ok (payload, rest).
Proof.
  intros Hlen. rewrite read_except_BytesIO, length_app.
  destruct (Nat.leb_spec n (length payload + length rest)); [| lia].
  by rewrite take_app_length', drop_app_length'.
Qed.

(** C6. Once the declared number of payload bytes is read, [_unpack_string]
    returns the text the payload decodes to as UTF-8; a payload that is not
    valid UTF-8 is returned as raw bytes under [allow_invalid_utf8] and
    raises [InvalidStringException] otherwise. *)
Theorem unpack_string_utf8 (c : byte) (o : options)
  (payload rest buf : list byte) :
  str_frame c payload rest buf →
  _unpack_string c o buf
  = match utf8_decode payload with
    | Some s => Ok (VStr s, rest)
    | None =>
        if allow_invalid_utf8 o then Ok (VBytes payload, rest)
        else Err InvalidStringException
    end.
Proof.
  intros [[Hlo Hhi] Hlen | lenfield [Hlo Hhi] Hfield Hlen].
  - revert Hlo Hhi Hlen.
    destruct c; unfold ord at 1 2 3; simpl Z.of_N; intros Hlo Hhi Hlen;
      try lia;
      eval_rhs_in Hlen; unfold _unpack_string; cbv zeta; decide_tests;
      unfold bind at 1, ret at 1; unfold bind at 1, as_int, ret at 1;
      unfold bind at 1;
      match goal with
      | |- context [_read_except ?n] =>
          let n' := eval vm_compute in n in change n with n'
      end;
      rewrite (read_except_app _ _ _ Hlen);
      by destruct (utf8_decode payload), (allow_invalid_utf8 o).
  - revert Hlo Hhi Hfield.
    destruct c; unfold ord at 1 2 3; simpl Z.of_N; intros Hlo Hhi Hfield;
      try lia;
      eval_rhs_in Hfield; unfold _unpack_string; cbv zeta; decide_tests;
      unfold bind at 1; rewrite (re0_BytesIO _ _ _ _ Hfield);
      unfold struct_unpack, lift; decide_tests;
      rewrite (struct_unpack_sized _ _ _ Hfield);
      unfold bind at 1, as_int, ret at 1; unfold bind at 1;
      rewrite (read_except_app _ _ _ Hlen);
      by destruct (utf8_decode payload), (allow_invalid_utf8 o).
Qed.

Example utf8_two_bytes : utf8_decode [xc3; xa9] = Some [0xe9].
Proof. reflexivity. Qed.

Example utf8_overlong : utf8_decode [xc0; x80] = None.
Proof. reflexivity. Qed.

Example utf8_surrogate : utf8_decode [xed; xa0; x80] = None.
Proof. reflexivity. Qed.

Example invalid_string_rejected :
  loads ∅ (VBytes [xa1; xff]) default_options = Err InvalidStringException.
Proof. vm_compute. reflexivity. Qed.

Example invalid_string_allowed :
  loads ∅ (VBytes [xa1; xff])
    {| use_tuple := false; use_ordered_dict := false;
       allow_invalid_utf8 := true; ext_handlers := ∅ |}
  = Ok (VBytes [xff]).
Proof. vm_compute. reflexivity. Qed.

(** ** The extension decoder *)

Lemma re0_type_byte (t : byte) (rest : list byte) :
  _re0 "b" 1 (t :: rest) = Ok (VInt (be_signed [t]), rest).
Proof. apply (re0_BytesIO "b" 1 [t] rest). reflexivity. Qed.

Lemma unpack_ext_reads (ext_type_to_class : gmap Z ext_class) (c : byte)
  (o : options) (payload rest buf : list byte) (t : Z) :
  ext_frame c payload rest t buf →
  _unpack_ext ext_type_to_class c o buf
  = ext_resolve ext_type_to_class o t payload rest.
Proof.
  intros [tb [Hlo Hhi] Hlen | lenfield tb [Hlo Hhi] Hfield Hlen].
  - revert Hlo Hhi Hlen.
    destruct c; unfold ord at 1 2 3; simpl Z.of_N; intros Hlo Hhi Hlen;
      try lia;
      eval_rhs_in Hlen; unfold _unpack_ext; cbv zeta; decide_tests;
      unfold bind at 1, ret at 1; unfold bind at 1, as_int at 1, ret at 1;
      unfold bind at 1; rewrite re0_type_byte;
      unfold bind at 1, as_int, ret at 1; unfold bind at 1;
      match goal with
      | |- context [_read_except ?n] =>
          let n' := eval vm_compute in n in change n with n'
      end;
      by rewrite (read_except_app _ _ _ Hlen).
  - revert Hlo Hhi Hfield.
    destruct c; unfold ord at 1 2 3; simpl Z.of_N; intros Hlo Hhi Hfield;
      try lia;
      eval_rhs_in Hfield; unfold _unpack_ext; cbv zeta; decide_tests;
      unfold bind at 1; rewrite (re0_BytesIO _ _ _ _ Hfield);
      unfold struct_unpack, lift; decide_tests;
      rewrite (struct_unpack_sized _ _ _ Hfield);
      unfold bind at 1, as_int at 1, ret at 1;
      unfold bind at 1; rewrite re0_type_byte;
      unfold bind at 1, as_int, ret at 1; unfold bind at 1;
      by rewrite (read_except_app _ _ _ Hlen).
Qed.

(** C7. With the Extension Object [Ext(t, payload)] read, [_unpack_ext]
    (1) calls the handler that [options] gives for [t], if any, on the
    Extension Object and returns its result; (2) failing that, calls
    [unpackb] of the class registered for [t], if any, and returns its
    result, raising [NotImplementedError] when the class has no [unpackb];
    (3) failing both, returns the Extension Object itself. *)
Theorem unpack_ext_resolution (ext_type_to_class : gmap Z ext_class)
  (c : byte) (o : options) (payload rest buf : list byte) (t : Z) :
  ext_frame c payload rest t buf →
  (∀ handler,
     ext_handlers o !! t = Some handler →
     _unpack_ext ext_type_to_class c o buf
     = match handler (VExt t payload) with
       | Returned v => Ok (v, rest)
       | Raises name => Err (Raised name)
       end)
  ∧ (∀ cls,
       ext_handlers o !! t = None → ext_type_to_class !! t = Some cls →
       (∀ f v, unpackb cls = Some f → f payload = Returned v →
               _unpack_ext ext_type_to_class c o buf = Ok (v, rest))
       ∧ (unpackb cls = None →
          _unpack_ext ext_type_to_class c o buf = Err NotImplementedError))
  ∧ (ext_handlers o !! t = None → ext_type_to_class !! t = None →
     _unpack_ext ext_type_to_class c o buf = Ok (VExt t payload, rest)).
Proof.
  intros Hframe. rewrite (unpack_ext_reads _ _ _ _ _ _ _ Hframe).
  unfold ext_resolve. split; [| split].
  - intros handler ->. by destruct (handler _).
  - intros cls -> ->. split.
    + by intros f v -> ->.
    + by intros ->.
  - by intros -> ->.
Qed.

(** A handler put into the options for a type identifier is the one that
    runs, whatever the registry holds for that identifier. *)
Corollary handler_overrides_registry (ext_type_to_class : gmap Z ext_class)
  (c : byte) (o : options) (payload rest buf : list byte) (t : Z)
  (handler : value → handler_result) :
  ext_frame c payload rest t buf →
  _unpack_ext ext_type_to_class c
    {| use_tuple := use_tuple o; use_ordered_dict := use_ordered_dict o;
       allow_invalid_utf8 := allow_invalid_utf8 o;
       ext_handlers := <[t := handler]> (ext_handlers o) |} buf
  = match handler (VExt t payload) with
    | Returned v => Ok (v, rest)
    | Raises name => Err (Raised name)
    end.
Proof.
  intros Hframe. rewrite (unpack_ext_reads _ _ _ _ _ _ _ Hframe).
  unfold ext_resolve. cbn [ext_handlers]. rewrite lookup_insert_eq.
  by destruct (handler _).
Qed.

(** ** Map keys *)

(** Induction on values that goes inside lists. *)
Lemma value_list_ind (P : value → Prop) :
  (∀ xs, Forall P xs → P (VList xs)) →
  (∀ v, is_list v = false → P v) →
  ∀ v, P v.
Proof.
  intros Hlist Hother. fix IH 1. intros v.
  destruct v as [| | | | | |xs| | | |]; try (by apply Hother).
  apply Hlist. induction xs as [|x xs IHxs]; constructor; [apply IH | exact IHxs].
Qed.

Lemma deep_list_to_tuple_hashable (v : value) :
  hashable (_deep_list_to_tuple v) = list_of_hashables v.
Proof.
  induction v as [xs IH | v Hv] using value_list_ind.
  - simpl. induction IH as [|x xs Hx _ IHxs]; [done |].
    simpl. by rewrite Hx, IHxs.
  - by destruct v.
Qed.

Lemma dict_replace_fresh (k v : value) (d : list (value * value)) :
  dict_contains k d = false → dict_replace k v d = d ++ [(k, v)].
Proof.
  induction d as [|[k' v'] d IH]; [done |]. simpl.
  destruct (key_eq k k'); [done |]. simpl. intros Hd. by rewrite IH.
Qed.

Section MapKeys.

Context {Src : Type} `{!ByteSource Src}.

(** One turn of the loop of [_unpack_map], the key decoded. *)
Lemma unpack_map_for_key (load : M Src value) (n : nat)
  (d : list (value * value)) (fp fp' : Src) (k : value) :
  load fp = Ok (k, fp') →
  _unpack_map_for load (S n) d fp
  = if hashable (map_key k) then
      if dict_contains (map_key k) d then Err DuplicateKeyException
      else
        match load fp' with
        | Ok (v, fp'') =>
            _unpack_map_for load n (dict_replace (map_key k) v d) fp''
        | Err e => Err e
        end
    else Err UnhashableKeyException.
Proof.
  intros Hkey. simpl. unfold bind at 1. rewrite Hkey. fold (map_key k).
  unfold py_hash, dict_setitem.
  destruct (hashable (map_key k)); [| done].
  destruct (dict_contains (map_key k) d); [done |].
  unfold bind. by destruct (load fp') as [[v fp'']|e].
Qed.

(** A map that decodes holds as many items as it declared, no key equal to
    an earlier one: no item was dropped or overwritten on the way. *)
Lemma unpack_map_for_distinct (load : M Src value) (n : nat)
  (d d' : list (value * value)) (fp fp' : Src) :
  _unpack_map_for load n d fp = Ok (d', fp') →
  distinct_keys d →
  distinct_keys d' ∧ length d' = (length d + n)%nat.
Proof.
  revert d fp. induction n as [|n IH]; intros d fp.
  - intros [= <- <-] Hd. split; [done | lia].
  - destruct (load fp) as [[k fp1]|e] eqn:Hkey.
    2:{ simpl. unfold bind at 1. by rewrite Hkey. }
    rewrite (unpack_map_for_key _ _ _ _ _ _ Hkey).
    destruct (hashable (map_key k)) eqn:Hhash; [| done].
    destruct (dict_contains (map_key k) d) eqn:Hdup; [done |].
    destruct (load fp1) as [[v fp2]|e]; [| done].
    rewrite dict_replace_fresh by done. intros Hrun Hd.
    destruct (IH _ _ Hrun) as [Hdist Hlen]; [by constructor |].
    split; [done |]. rewrite Hlen, length_app. simpl. lia.
Qed.

End MapKeys.

(** C4. In the loop of [_unpack_map], a hashable key equal to one already
    inserted raises [DuplicateKeyException]; two list keys count as equal
    when their tuple forms are, as two empty arrays do; and a map that
    decodes has all its declared items under pairwise different keys. *)
Theorem unpack_map_duplicate_key {Src : Type} `{!ByteSource Src}
  (load : M Src value) (n : nat) (d : list (value * value)) :
  (∀ (fp fp' : Src) (k : value),
     load fp = Ok (k, fp') →
     hashable (map_key k) = true →
     dict_contains (map_key k) d = true →
     _unpack_map_for load (S n) d fp = Err DuplicateKeyException)
  ∧ (∀ o : options,
       loads ∅ (VBytes [x82; x90; x01; x90; x02]) o
       = Err DuplicateKeyException)
  ∧ (∀ (fp fp' : Src) (d' : list (value * value)),
       _unpack_map_for load n [] fp = Ok (d', fp') →
       distinct_keys d' ∧ length d' = n).
Proof.
  split; [| split].
  - intros fp fp' k Hkey Hhash Hdup.
    by rewrite (unpack_map_for_key _ _ _ _ _ _ Hkey), Hhash, Hdup.
  - intros [[] od ai eh]; reflexivity.
  - intros fp fp' d' Hrun.
    by destruct (unpack_map_for_distinct _ _ _ _ _ _ Hrun distinct_nil).
Qed.

(** C5. In the loop of [_unpack_map] a decoded list key is converted to a
    tuple, lists inside lists included; a key that is then unhashable, such
    as a mapping or a tuple that holds one, raises
    [UnhashableKeyException]; a key that is hashable never takes the
    [TypeError] path of the insertion, and raises no key error unless it is
    a duplicate. *)
Theorem unpack_map_unhashable_key {Src : Type} `{!ByteSource Src}
  (load : M Src value) (n : nat) (d : list (value * value)) :
  (∀ xs : list value,
     map_key (VList xs) = VTuple (map _deep_list_to_tuple xs)
     ∧ hashable (map_key (VList xs)) = forallb list_of_hashables xs)
  ∧ (∀ (ordered : bool) (items : list (value * value)),
       hashable (map_key (VDict ordered items)) = false)
  ∧ (∀ (fp fp' : Src) (k : value),
       load fp = Ok (k, fp') →
       hashable (map_key k) = false →
       _unpack_map_for load (S n) d fp = Err UnhashableKeyException)
  ∧ (∀ (k v : value),
       hashable k = true → dict_setitem k v d = Ok (dict_replace k v d))
  ∧ (∀ (fp fp' : Src) (k : value),
       load fp = Ok (k, fp') →
       hashable (map_key k) = true →
       dict_contains (map_key k) d = false →
       _unpack_map_for load (S n) d fp
       = match load fp' with
         | Ok (v, fp'') =>
             _unpack_map_for load n (d ++ [(map_key k, v)]) fp''
         | Err e => Err e
         end).
Proof.
  split; [| split; [| split; [| split]]].
  - intros xs. split; [reflexivity |].
    apply (deep_list_to_tuple_hashable (VList xs)).
  - reflexivity.
  - intros fp fp' k Hkey Hhash.
    by rewrite (unpack_map_for_key _ _ _ _ _ _ Hkey), Hhash.
  - intros k v Hhash. unfold dict_setitem. by rewrite Hhash.
  - intros fp fp' k Hkey Hhash Hfresh.
    rewrite (unpack_map_for_key _ _ _ _ _ _ Hkey), Hhash, Hfresh.
    destruct (load fp') as [[v fp'']|e]; [| done].
    by rewrite dict_replace_fresh.
Qed.

Example list_key_accepted :
  loads ∅ (VBytes [x81; x92; x01; x91; x02; xc0]) default_options
  = Ok (VDict false [(VTuple [VInt 1; VTuple [VInt 2]], VNone)]).
Proof. vm_compute. reflexivity. Qed.

Example map_key_rejected :
  loads ∅ (VBytes [x81; x80; xc0]) default_options
  = Err UnhashableKeyException.
Proof. vm_compute. reflexivity. Qed.

Example list_of_map_key_rejected :
  loads ∅ (VBytes [x81; x91; x80; xc0]) default_options
  = Err UnhashableKeyException.
Proof. vm_compute. reflexivity. Qed.

(** C10. The key of a map entry is checked before its value is decoded:
    when the bytes [c] of the key decode to an unhashable key, or to a
    duplicate of an earlier key, the loop of [_unpack_map] raises
    [UnhashableKeyException] or [DuplicateKeyException] whatever bytes
    [junk] stand where the value should be, none at all included. *)
Theorem unpack_map_key_checked_first (ext_type_to_class : gmap Z ext_class)
  (fuel : nat) (o : options) (c junk : list byte) (k : value) (n : nat)
  (d : list (value * value)) :
  load ext_type_to_class fuel o c = Ok (k, []) →
  (hashable (map_key k) = false →
   _unpack_map_for (load ext_type_to_class fuel o) (S n) d (c ++ junk)
   = Err UnhashableKeyException)
  ∧ (hashable (map_key k) = true →
     dict_contains (map_key k) d = true →
     _unpack_map_for (load ext_type_to_class fuel o) (S n) d (c ++ junk)
     = Err DuplicateKeyException).
Proof.
  intros Hkey.
  destruct (streaming_load _ _ _ _ _ _ Hkey) as [c' [Heq [Hext _]]].
  rewrite app_nil_r in Heq. subst c'. specialize (Hext junk).
  rewrite (unpack_map_for_key _ _ _ _ _ _ Hext).
  split.
  - by intros ->.
  - by intros -> ->.
Qed.

Example unhashable_key_truncated_value :
  loads ∅ (VBytes [x81; x80]) default_options = Err UnhashableKeyException.
Proof. vm_compute. reflexivity. Qed.

Example unhashable_key_malformed_value :
  loads ∅ (VBytes [x81; x80; xc1]) default_options
  = Err UnhashableKeyException.
Proof. vm_compute. reflexivity. Qed.

Example duplicate_key_truncated_value :
  loads ∅ (VBytes [x82; x01; x02; x01]) default_options
  = Err DuplicateKeyException.
Proof. vm_compute. reflexivity. Qed.

Example duplicate_key_malformed_value :
  loads ∅ (VBytes [x82; x01; x02; x01; xc1]) default_options
  = Err DuplicateKeyException.
Proof. vm_compute. reflexivity. Qed.

(** A NaN equals nothing, itself included: two NaN keys are two keys. *)
Example nan_keys_do_not_collide :
  loads ∅ (VBytes [x82; xca; x7f; xc0; x00; x00; x01;
                        xca; x7f; xc0; x00; x00; x02]) default_options
  = Ok (VDict false [(VFloat FNan, VInt 1); (VFloat FNan, VInt 2)]).
Proof. vm_compute. reflexivity. Qed.

Example int_and_float_keys_collide :
  loads ∅ (VBytes [x82; x01; xc0; xca; x3f; x80; x00; x00; xc0])
    default_options
  = Err DuplicateKeyException.
Proof. vm_compute. reflexivity. Qed.

(** ** The theorems at concrete inputs *)

Lemma load_dispatch_total_witness :
  load ∅ 1 default_options [xc3; x00] = Ok (VBool true, [x00])
  ∧ load ∅ 1 default_options [xc1; x00] = Err ReservedCodeException.
Proof.
  split.
  - rewrite (proj1 (@load_dispatch_total (list byte) BytesIO ∅) 0%nat
               default_options [xc3; x00]).
    reflexivity.
  - rewrite (proj1 (@load_dispatch_total (list byte) BytesIO ∅) 0%nat
               default_options [xc1; x00]).
    reflexivity.
Defined.

Lemma loads_truncated_witness :
  encodes ∅ default_options [x92; x01; x02] (VList [VInt 1; VInt 2])
  ∧ loads ∅ (VBytes [x92; x01]) default_options
    = Err InsufficientDataException.
Proof.
  assert (encodes ∅ default_options [x92; x01; x02] (VList [VInt 1; VInt 2]))
    as Henc by (vm_compute; reflexivity).
  split; [exact Henc |].
  apply (loads_truncated ∅ default_options [x92; x01; x02] [x92; x01] [x02]
           (VList [VInt 1; VInt 2]) Henc); [reflexivity | discriminate].
Defined.

Lemma loads_ignores_trailing_bytes_witness :
  encodes ∅ default_options [x92; x01; x02] (VList [VInt 1; VInt 2])
  ∧ loads ∅ (VBytes [x92; x01; x02; xc1; xff]) default_options
    = Ok (VList [VInt 1; VInt 2]).
Proof.
  assert (encodes ∅ default_options [x92; x01; x02] (VList [VInt 1; VInt 2]))
    as Henc by (vm_compute; reflexivity).
  split; [exact Henc |].
  apply (loads_ignores_trailing_bytes ∅ default_options [x92; x01; x02]
           [xc1; xff] (VList [VInt 1; VInt 2]) Henc).
Defined.

Lemma read_except_contract_witness :
  ∃ rest, _read_except 3 [[x01]; [x02]; [x03; x04]]
          = Ok (take 3 (concat [[x01]; [x02]; [x03; x04]]), rest)
          ∧ concat rest = drop 3 (concat [[x01]; [x02]; [x03; x04]]).
Proof.
  apply (proj1 (proj2 (proj2 (proj2 (proj2
           (@read_except_contract (list (list byte)) Chunked
              Chunked_lawful)))))).
  - repeat constructor; discriminate.
  - simpl. lia.
Defined.

Lemma unpack_integer_exact_witness :
  _unpack_integer xcd [x01; x02; xff] = Ok (VInt 258, [xff])
  ∧ _unpack_integer xd1 [xff; xfe] = Ok (VInt (-2), []).
Proof.
  split.
  - apply (proj1 (proj2 (proj2 (@unpack_integer_exact (list byte) BytesIO)))
             xcd [x01; x02] [xff]); [unfold ord; simpl; lia | reflexivity].
  - apply (proj2 (proj2 (proj2 (@unpack_integer_exact (list byte) BytesIO)))
             xd1 [xff; xfe] []); [unfold ord; simpl; lia | reflexivity].
Defined.

Lemma unpack_string_utf8_witness :
  _unpack_string xd9 default_options [x02; xc3; xa9; x00]
  = Ok (VStr [0xe9], [x00]).
Proof.
  apply (unpack_string_utf8 xd9 default_options [xc3; xa9] [x00]
           [x02; xc3; xa9; x00]).
  apply (strN_frame xd9 [xc3; xa9] [x00] [x02]);
    [unfold ord; simpl; lia | reflexivity | reflexivity].
Defined.

Lemma ext5_frame : ext_frame xd4 [xaa] [] 5 [x05; xaa].
Proof.
  apply (fixext_frame xd4 [xaa] [] x05); [unfold ord; simpl; lia | reflexivity].
Defined.

Lemma unpack_ext_resolution_witness :
  _unpack_ext ∅ xd4 default_options [x05; xaa] = Ok (VExt 5 [xaa], [])
  ∧ _unpack_ext {[ 5 := {| unpackb := None |} ]} xd4 default_options
      [x05; xaa]
    = Err NotImplementedError.
Proof.
  split.
  - apply (proj2 (proj2 (unpack_ext_resolution ∅ xd4 default_options
                           [xaa] [] [x05; xaa] 5 ext5_frame)));
      reflexivity.
  - destruct (proj1 (proj2 (unpack_ext_resolution
                              {[ 5 := {| unpackb := None |} ]} xd4
                              default_options [xaa] [] [x05; xaa] 5
                              ext5_frame))
                {| unpackb := None |}) as [_ Hnone];
      [reflexivity | vm_compute; reflexivity | apply Hnone; reflexivity].
Defined.

Lemma unpack_map_duplicate_key_witness :
  _unpack_map_for (load ∅ 2 default_options) 1 [(VTuple [], VInt 1)]
    [x90; xc1]
  = Err DuplicateKeyException.
Proof.
  apply (proj1 (@unpack_map_duplicate_key (list byte) BytesIO
                  (load ∅ 2 default_options) 0 [(VTuple [], VInt 1)])
           [x90; xc1] [xc1] (VList [])); reflexivity.
Defined.

Lemma unpack_map_unhashable_key_witness :
  _unpack_map_for (load ∅ 3 default_options) 1 [] [x91; x80; xc0]
  = Err UnhashableKeyException.
Proof.
  apply (proj1 (proj2 (proj2 (@unpack_map_unhashable_key (list byte) BytesIO
                                (load ∅ 3 default_options) 0 [])))
           [x91; x80; xc0] [xc0] (VList [VDict false []])); reflexivity.
Defined.

Lemma unpack_map_key_checked_first_witness :
  load ∅ 2 default_options [x80] = Ok (VDict false [], [])
  ∧ _unpack_map_for (load ∅ 2 default_options) 1 [] ([x80] ++ [xc1])
    = Err UnhashableKeyException.
Proof.
  split; [reflexivity |].
  apply (proj1 (unpack_map_key_checked_first ∅ 2 default_options [x80] [xc1]
                  (VDict false []) 0 [] eq_refl)).
  reflexivity.
Defined.

(** * Further properties of the decoder *)

(** ** Progress *)

Lemma load_empty_buffer (ext_type_to_class : gmap Z ext_class) (fuel : nat)
  (o : options) :
  load ext_type_to_class (S fuel) o (@nil byte)
  = Err InsufficientDataException.
Proof. reflexivity. Qed.

(** A successful [load] has read at least its tag byte, and what it leaves
    is the unread end of the buffer it was given. *)
Theorem load_consumes (ext_type_to_class : gmap Z ext_class) (fuel : nat)
  (o : options) (s r : list byte) (v : value) :
  load ext_type_to_class fuel o s = Ok (v, r) →
  ∃ c, c ≠ [] ∧ s = c ++ r ∧ (length r < length s)%nat.
Proof.
  intros Hrun.
  destruct (streaming_load _ _ _ _ _ _ Hrun) as [c [-> [Hext _]]].
  exists c. destruct c as [|x c].
  - exfalso. specialize (Hext []).
    change ([] ++ []) with (@nil byte) in Hext.
    destruct fuel; [discriminate |]. by rewrite load_empty_buffer in Hext.
  - split; [done |]. split; [done |]. rewrite length_app. simpl. lia.
Qed.

Lemma load_consumes_witness :
  load ∅ 2 default_options [x91; x05; xc0] = Ok (VList [VInt 5], [xc0])
  ∧ ∃ c, c ≠ [] ∧ [x91; x05; xc0] = c ++ [xc0]
         ∧ (length [xc0] < length [x91; x05; xc0])%nat.
Proof.
  split; [reflexivity |].
  apply (load_consumes ∅ 2 default_options [x91; x05; xc0] [xc0]
           (VList [VInt 5])).
  reflexivity.
Defined.

(** ** The binary decoder *)

Lemma load_tag (ext_type_to_class : gmap Z ext_class) (fuel : nat)
  (o : options) (c : byte) (buf : list byte) :
  load ext_type_to_class (S fuel) o (c :: buf)
  = run_routine ext_type_to_class (load ext_type_to_class fuel) c o
      (wire_table (ord c)) buf.
Proof.
  change (load (Src:=list byte) ext_type_to_class (S fuel) o)
    with (load_body (Src:=list byte) ext_type_to_class
            (load ext_type_to_class fuel) o).
  by rewrite load_body_dispatch.
Qed.

(** A byte string (bin 8, bin 16, bin 32) decodes to its payload as raw
    bytes, whether or not the payload happens to be UTF-8 text; [load]
    reaches [_unpack_binary] for exactly these tags. *)
Theorem unpack_binary_raw (ext_type_to_class : gmap Z ext_class)
  (fuel : nat) (o : options) (c : byte) (payload rest buf : list byte) :
  bin_frame c payload rest buf →
  _unpack_binary c buf = Ok (VBytes payload, rest)
  ∧ load ext_type_to_class (S fuel) o (c :: buf) = Ok (VBytes payload, rest).
Proof.
  intros [lenfield [Hlo Hhi] Hfield Hlen].
  assert (_unpack_binary c (lenfield ++ payload ++ rest)
          = Ok (VBytes payload, rest)) as Hbin.
  { revert Hlo Hhi Hfield.
    destruct c; unfold ord at 1 2 3; simpl Z.of_N; intros Hlo Hhi Hfield;
      try lia;
      eval_rhs_in Hfield; unfold _unpack_binary; cbv zeta; decide_tests;
      unfold bind at 1; rewrite (re0_BytesIO _ _ _ _ Hfield);
      unfold struct_unpack, lift; decide_tests;
      rewrite (struct_unpack_sized _ _ _ Hfield);
      unfold bind at 1, as_int, ret at 1; unfold bind at 1;
      by rewrite (read_except_app _ _ _ Hlen). }
  split; [exact Hbin |]. rewrite load_tag, <- Hbin.
  revert Hlo Hhi. clear.
  destruct c; unfold ord at 1 2; simpl Z.of_N; intros Hlo Hhi; try lia;
    reflexivity.
Qed.

Lemma unpack_binary_raw_witness :
  load ∅ 1 default_options [xc4; x02; x68; x69; xff]
  = Ok (VBytes [x68; x69], [xff]).
Proof.
  apply (unpack_binary_raw ∅ 0 default_options xc4 [x68; x69] [xff]
           [x02; x68; x69; xff]).
  apply (binN_frame xc4 [x68; x69] [xff] [x02]);
    [unfold ord; simpl; lia | reflexivity | reflexivity].
Defined.

(** ** What every run of [load] ends in *)

Section Ensures.

Context {Src : Type} `{!ByteSource Src}.

Lemma ensures_ret {A} (a : A) (Q : A → Prop) (E : exn → Prop) :
  Q a → ensures (@ret Src A a) Q E.
Proof. by intros Ha fp. Qed.

Lemma ensures_raise {A} (e : exn) (Q : A → Prop) (E : exn → Prop) :
  E e → ensures (@raise Src A e) Q E.
Proof. by intros He fp. Qed.

Lemma ensures_bind {A B} (m : M Src A) (k : A → M Src B)
  (Q : A → Prop) (Q' : B → Prop) (E : exn → Prop) :
  ensures m Q E → (∀ a, Q a → ensures (k a) Q' E) →
  ensures (bind m k) Q' E.
Proof.
  intros Hm Hk fp. unfold bind. specialize (Hm fp).
  destruct (m fp) as [[a fp']|e]; [by apply Hk | done].
Qed.

Lemma ensures_bind_ret {A B} (a : A) (k : A → M Src B)
  (Q : B → Prop) (E : exn → Prop) :
  ensures (k a) Q E → ensures (bind (ret a) k) Q E.
Proof. intros Hk fp. apply Hk. Qed.

Lemma ensures_weaken {A} (m : M Src A) (Q Q' : A → Prop)
  (E : exn → Prop) :
  ensures m Q E → (∀ a, Q a → Q' a) → ensures m Q' E.
Proof.
  intros Hm HQ fp. specialize (Hm fp).
  destruct (m fp) as [[a fp']|e]; [by apply HQ | done].
Qed.

Lemma ensures_read_except `{!LawfulSource Src} (n : nat) (E : exn → Prop) :
  E InsufficientDataException →
  ensures (_read_except n) (λ data, length data = n) E.
Proof.
  intros HE fp.
  destruct (read_except_outcome n fp) as [(data & fp' & -> & Hlen)| ->];
    done.
Qed.

End Ensures.

Lemma struct_unpack_int (fmt : string) (data : list byte) :
  int_size fmt = Some (length data) →
  ∃ z, struct_unpack fmt data = Ok (VInt z) ∧ - 2 ^ 63 ≤ z < 2 ^ 64.
Proof.
  unfold int_size, struct_unpack.
  pose proof (be_unsigned_range data) as Hu.
  repeat match goal with
         | |- context [String.eqb fmt ?s] => destruct (String.eqb fmt s)
         end;
    intros [= Hlen]; try done; rewrite <- Hlen, Nat.eqb_refl;
    rewrite <- Hlen in Hu.
  1-4: eexists; split; [reflexivity | simpl in Hu; lia].
  all: destruct (be_signed_range data) as [Hs _];
    [by intros ->; simpl in Hlen | rewrite <- Hlen in Hs];
    eexists; split; [reflexivity | simpl in Hs; lia].
Qed.

Section EnsuresReaders.

Context {Src : Type} `{!ByteSource Src} `{!LawfulSource Src}.
Variable E : exn → Prop.
Hypothesis E_insufficient : E InsufficientDataException.

Lemma ensures_re0_int (fmt : string) (n : nat) :
  int_size fmt = Some n → ensures (_re0 (Src:=Src) fmt n) int64 E.
Proof.
  intros Hfmt. unfold _re0.
  eapply ensures_bind; [by apply ensures_read_except |].
  intros data Hlen fp. unfold lift. rewrite <- Hlen in Hfmt.
  destruct (struct_unpack_int fmt data Hfmt) as (z & -> & Hz).
  by exists z.
Qed.

Lemma ensures_re0_int8 :
  ensures (_re0 (Src:=Src) "b" 1)
    (λ v, ∃ z, v = VInt z ∧ -128 ≤ z ≤ 127) E.
Proof.
  unfold _re0. eapply ensures_bind; [by apply ensures_read_except |].
  intros data Hlen fp. unfold lift, struct_unpack. simpl String.eqb.
  cbv beta iota. rewrite Hlen. simpl.
  destruct (be_signed_range data) as [Hs _]; [by intros -> |].
  rewrite Hlen in Hs. eexists. split; [reflexivity | simpl in Hs; lia].
Qed.

Lemma ensures_re0_float32 :
  ensures (_re0 (Src:=Src) ">f" 4) (λ v, ∃ f, v = VFloat f) E.
Proof.
  unfold _re0. eapply ensures_bind; [by apply ensures_read_except |].
  intros data Hlen fp. unfold lift, struct_unpack. simpl String.eqb.
  cbv beta iota. rewrite Hlen. simpl. by eexists.
Qed.

Lemma ensures_re0_float64 :
  ensures (_re0 (Src:=Src) ">d" 8) (λ v, ∃ f, v = VFloat f) E.
Proof.
  unfold _re0. eapply ensures_bind; [by apply ensures_read_except |].
  intros data Hlen fp. unfold lift, struct_unpack. simpl String.eqb.
  cbv beta iota. rewrite Hlen. simpl. by eexists.
Qed.

End EnsuresReaders.

Lemma distinct_keys_snoc_inv d k v :
  distinct_keys (d ++ [(k, v)]) →
  distinct_keys d ∧ hashable k = true ∧ dict_contains k d = false.
Proof.
  inversion 1 as [Hnil | d' k' v' Hd Hh Hc Heq].
  - by destruct d.
  - apply app_inj_tail in Heq as [-> [= -> ->]]. done.
Qed.

Section Invariant.

Context {Src : Type} `{!ByteSource Src} `{!LawfulSource Src}.
Variable ext_type_to_class : gmap Z ext_class.
Variable o : options.
Variable A : value → Prop.

Hypothesis A_none : A VNone.
Hypothesis A_bool : ∀ b, A (VBool b).
Hypothesis A_int : ∀ z, - 2 ^ 63 ≤ z < 2 ^ 64 → A (VInt z).
Hypothesis A_float : ∀ f, A (VFloat f).
Hypothesis A_str : ∀ s, A (VStr s).
Hypothesis A_bytes : ∀ b, A (VBytes b).
Hypothesis A_ext : ∀ t d, -128 ≤ t ≤ 127 → A (VExt t d).
Hypothesis A_seq : ∀ xs, A (if use_tuple o then VTuple xs else VList xs).
Hypothesis A_key : ∀ xs, A (VTuple xs).
Hypothesis A_dict :
  ∀ items, distinct_keys items → A (VDict (use_ordered_dict o) items).
Hypothesis A_callbacks : callbacks_return (everywhere A) ext_type_to_class o.

Let E : exn → Prop := allowed_error ext_type_to_class o.

Lemma allowed_decode_error e : decode_error e → E e.
Proof. by left. Qed.

Lemma E_insufficient : E InsufficientDataException.
Proof. left. by left. Qed.

Lemma everywhere_deep_list_to_tuple (v : value) :
  everywhere A v → everywhere A (_deep_list_to_tuple v).
Proof.
  induction v as [xs IH | v Hv] using value_list_ind.
  - intros Hall.
    inversion Hall as [xs' HA Hxs | | | v' Hleaf HA]; subst;
      [| simpl in Hleaf; discriminate].
    simpl. apply everywhere_tuple; [apply A_key |].
    rewrite Forall_map. clear Hall HA. revert Hxs.
    induction IH as [|x xs Hx _ IHxs]; intros Hxs; [done |].
    inversion Hxs; subst. constructor; [by apply Hx | by apply IHxs].
  - by destruct v.
Qed.

Lemma everywhere_map_key (k : value) :
  everywhere A k → everywhere A (map_key k).
Proof.
  intros Hk. unfold map_key.
  destruct (is_list k); [by apply everywhere_deep_list_to_tuple | done].
Qed.

Lemma ensures_ext_resolve (t : Z) (data : list byte) :
  -128 ≤ t ≤ 127 →
  ensures (ext_resolve (Src:=Src) ext_type_to_class o t data)
    (everywhere A) E.
Proof.
  intros Ht fp. unfold ext_resolve, ret, raise.
  destruct A_callbacks as [Hhandlers Hclasses].
  destruct (ext_handlers o !! t) as [handler|] eqn:Hhandler.
  - assert (¬ no_callbacks ext_type_to_class o) as Hsome.
    { intros [_ Hnone]. by rewrite Hnone, lookup_empty in Hhandler. }
    destruct (handler (VExt t data)) as [v|name] eqn:Hcall.
    + by apply (Hhandlers t handler (VExt t data)).
    + right. right. split; [right; by exists name | done].
  - destruct (ext_type_to_class !! t) as [cls|] eqn:Hcls.
    + assert (¬ no_callbacks ext_type_to_class o) as Hsome.
      { intros [Hnone _]. by rewrite Hnone, lookup_empty in Hcls. }
      destruct (unpackb cls) as [f|] eqn:Hf.
      * destruct (f data) as [v|name] eqn:Hcall.
        -- by apply (Hclasses t cls f data).
        -- destruct (String.eqb name "AttributeError");
             right; right; (split; [| done]); [by left | right; by exists name].
      * right. right. split; [by left | done].
    + apply everywhere_leaf; [done | by apply A_ext].
Qed.

Lemma ensures_unpack_array_gen (load : M Src value) (n : nat) :
  ensures load (everywhere A) E →
  ensures (_unpack_array_gen load n) (Forall (everywhere A)) E.
Proof.
  intros Hload. induction n as [|n IH]; simpl.
  - by apply ensures_ret.
  - eapply ensures_bind; [exact Hload |]. intros v Hv.
    eapply ensures_bind; [exact IH |]. intros vs Hvs.
    apply ensures_ret. by constructor.
Qed.

Lemma ensures_unpack_map_for (load : M Src value) (n : nat)
  (d : list (value * value)) :
  ensures load (everywhere A) E →
  distinct_keys d →
  Forall (λ kv, everywhere A kv.1 ∧ everywhere A kv.2) d →
  ensures (_unpack_map_for load n d)
    (λ d', distinct_keys d'
           ∧ Forall (λ kv, everywhere A kv.1 ∧ everywhere A kv.2) d') E.
Proof.
  intros Hload. revert d. induction n as [|n IH]; intros d Hd Hall; simpl.
  - by apply ensures_ret.
  - eapply ensures_bind; [exact Hload |]. intros k Hk. cbv zeta.
    fold (map_key k). unfold py_hash.
    destruct (hashable (map_key k)) eqn:Hhash.
    2:{ apply ensures_raise, allowed_decode_error. unfold decode_error. tauto. }
    destruct (dict_contains (map_key k) d) eqn:Hdup.
    { apply ensures_raise, allowed_decode_error. unfold decode_error. tauto. }
    eapply ensures_bind; [exact Hload |]. intros v Hv.
    unfold dict_setitem. rewrite Hhash, dict_replace_fresh by done.
    apply IH.
    + by constructor.
    + apply Forall_app. split; [done |]. constructor; [| done].
      split; [by apply everywhere_map_key | done].
Qed.

Lemma everywhere_int64 (v : value) : int64 v → everywhere A v.
Proof.
  intros (z & -> & Hz). apply everywhere_leaf; [done | by apply A_int].
Qed.

Lemma everywhere_float (v : value) : (∃ f, v = VFloat f) → everywhere A v.
Proof. intros [f ->]. apply everywhere_leaf; [done | apply A_float]. Qed.

Lemma everywhere_seq (xs : list value) :
  Forall (everywhere A) xs →
  everywhere A (if use_tuple o then VTuple xs else VList xs).
Proof.
  intros Hxs. pose proof (A_seq xs) as HA.
  destruct (use_tuple o); by constructor.
Qed.

Lemma ensures_lift_int (fmt : string) (data : list byte) :
  int_size fmt = Some (length data) →
  ensures (lift (Src:=Src) (struct_unpack fmt data)) (everywhere A) E.
Proof.
  intros Hfmt fp. unfold lift.
  destruct (struct_unpack_int fmt data Hfmt) as (z & -> & Hz).
  apply everywhere_int64. by exists z.
Qed.

Lemma ensures_leaf_ret (v : value) :
  is_container v = false → A v → ensures (@ret Src value v) (everywhere A) E.
Proof. intros Hv HA. apply ensures_ret. by apply everywhere_leaf. Qed.

(** The tests on a concrete tag decided, go through a decoder bind by
    bind. *)
Ltac ensures_step :=
  match goal with
  | |- ensures (bind (ret _) _) _ _ => apply ensures_bind_ret; cbn [as_int]
  | |- ensures (bind (_re0 "b" 1) _) _ _ =>
      eapply ensures_bind;
      [apply ensures_re0_int8, E_insufficient
      | intros ? (? & -> & ?); cbn [as_int]]
  | |- ensures (bind (_re0 _ _) _) _ _ =>
      eapply ensures_bind;
      [apply ensures_re0_int; [apply E_insufficient | reflexivity]
      | intros ? (? & -> & ?); cbn [as_int]]
  | |- ensures (bind (_read_except _) _) _ _ =>
      eapply ensures_bind;
      [apply ensures_read_except, E_insufficient | intros ? ?]
  | |- ensures (_re0 ">f" 4) _ _ =>
      eapply ensures_weaken;
      [apply ensures_re0_float32, E_insufficient | apply everywhere_float]
  | |- ensures (_re0 ">d" 8) _ _ =>
      eapply ensures_weaken;
      [apply ensures_re0_float64, E_insufficient | apply everywhere_float]
  | |- ensures (_re0 _ _) _ _ =>
      eapply ensures_weaken;
      [apply ensures_re0_int; [apply E_insufficient | reflexivity]
      | apply everywhere_int64]
  | |- ensures (lift (struct_unpack _ _)) _ _ =>
      apply ensures_lift_int; reflexivity
  | |- ensures (ext_resolve _ _ _ _) _ _ =>
      apply ensures_ext_resolve; assumption
  | |- ensures (ret (if use_tuple _ then _ else _)) _ _ =>
      apply ensures_ret, everywhere_seq; assumption
  | |- ensures (ret (VDict _ _)) _ _ =>
      apply ensures_ret, everywhere_dict; [apply A_dict |]; tauto
  | |- ensures (ret _) _ _ => apply ensures_leaf_ret; [reflexivity | auto]
  | |- ensures (raise _) _ _ =>
      apply ensures_raise, allowed_decode_error; unfold decode_error; tauto
  | |- ensures (match ?x with _ => _ end) _ _ => destruct x
  end.

Lemma ensures_run_routine (load : options → M Src value) (code : byte) :
  ensures (load o) (everywhere A) E →
  ensures (run_routine ext_type_to_class load code o (wire_table (ord code)))
    (everywhere A) E.
Proof.
  intros Hload.
  pose proof (ensures_unpack_array_gen (load o) ) as Hgen.
  pose proof (ensures_unpack_map_for (load o)) as Hfor.
  destruct code;
    match goal with
    | |- ensures (run_routine _ _ ?c _ ?r) _ _ =>
        let r' := eval vm_compute in r in change r with r'
    end;
    unfold run_routine, _unpack_integer, _unpack_float, _unpack_string,
      _unpack_binary, _unpack_array, _unpack_map, _unpack_ext;
    cbv zeta; decide_tests; try eval_re0_args; repeat ensures_step.
  all: try (eapply ensures_bind;
            [by apply Hgen | intros g Hg; by repeat ensures_step]).
  all: eapply ensures_bind;
    [apply Hfor; [exact Hload | constructor | constructor]
    | intros d [Hd Hall]; by repeat ensures_step].
Qed.

Lemma ensures_load (fuel : nat) :
  ensures (load ext_type_to_class fuel o) (everywhere A) E.
Proof.
  induction fuel as [|fuel IH]; intros fp; simpl.
  - right. by left.
  - rewrite load_body_dispatch.
    pose proof (ensures_read_except (Src:=Src) 1 E E_insufficient fp) as Hread.
    destruct (_read_except 1 fp) as [[[|code [|]] fp']|e];
      [discriminate | | discriminate | exact Hread].
    by apply ensures_run_routine.
Qed.

End Invariant.

(** Induction on values that goes inside lists, tuples and dictionaries. *)
Lemma value_deep_ind (P : value → Prop) :
  (∀ v, is_container v = false → P v) →
  (∀ xs, Forall P xs → P (VList xs)) →
  (∀ xs, Forall P xs → P (VTuple xs)) →
  (∀ ordered items,
     Forall (λ kv, P kv.1 ∧ P kv.2) items → P (VDict ordered items)) →
  ∀ v, P v.
Proof.
  intros Hleaf Hlist Htuple Hdict. fix IH 1.
  intros [| | | | | |xs|xs|ordered items| |]; try (by apply Hleaf).
  - apply Hlist. induction xs; constructor; [apply IH | assumption].
  - apply Htuple. induction xs; constructor; [apply IH | assumption].
  - apply Hdict. induction items as [|[k v] items IHitems];
      constructor; [split; apply IH | exact IHitems].
Qed.


Lemma no_callbacks_return (P : value → Prop)
  (ext_type_to_class : gmap Z ext_class) (o : options) :
  no_callbacks ext_type_to_class o →
  callbacks_return P ext_type_to_class o.
Proof.
  intros [-> Hnone]. split.
  - intros t handler x v Hlookup. by rewrite Hnone, lookup_empty in Hlookup.
  - intros t cls f data v Hlookup. by rewrite lookup_empty in Hlookup.
Qed.



Section DecodedValues.

Context {Src : Type} `{!ByteSource Src} `{!LawfulSource Src}.
Variable ext_type_to_class : gmap Z ext_class.
Variable o : options.

(** Every dictionary inside a decoded value, at any depth, is of the type
    [use_ordered_dict] selects and has hashable keys, no two of them equal,
    provided the dictionaries that user callbacks return are such. *)
Theorem load_sound_dicts (fuel : nat) (fp fp' : Src) (v : value) :
  callbacks_return (everywhere (sound_dict o)) ext_type_to_class o →
  load ext_type_to_class fuel o fp = Ok (v, fp') →
  everywhere (sound_dict o) v.
Proof.
  intros Hcb Hrun.
  pose proof (ensures_load ext_type_to_class o (sound_dict o)) as Hload.
  specialize (Hload I (λ _, I) (λ _ _, I) (λ _, I) (λ _, I) (λ _, I)
                (λ _ _ _, I)).
  assert (∀ xs, sound_dict o (if use_tuple o then VTuple xs else VList xs))
    as Hseq by (intros xs; by destruct (use_tuple o)).
  specialize (Hload Hseq (λ _, I) (λ items Hd, conj eq_refl Hd) Hcb fuel fp).
  by rewrite Hrun in Hload.
Qed.

(** Under [use_tuple] no list is left anywhere in a decoded value, nested
    arrays and arrays inside maps included, provided user callbacks return
    none. *)
Theorem load_use_tuple_no_list (fuel : nat) (fp fp' : Src) (v : value) :
  use_tuple o = true →
  callbacks_return (everywhere (λ v, is_list v = false))
    ext_type_to_class o →
  load ext_type_to_class fuel o fp = Ok (v, fp') →
  everywhere (λ v, is_list v = false) v.
Proof.
  intros Htuple Hcb Hrun.
  pose proof (ensures_load ext_type_to_class o (λ v, is_list v = false))
    as Hload.
  specialize (Hload eq_refl (λ _, eq_refl) (λ _ _, eq_refl) (λ _, eq_refl)
                (λ _, eq_refl) (λ _, eq_refl) (λ _ _ _, eq_refl)).
  assert (∀ xs, is_list (if use_tuple o then VTuple xs else VList xs) = false)
    as Hseq by (intros xs; by rewrite Htuple).
  specialize (Hload Hseq (λ _, eq_refl) (λ _ _, eq_refl) Hcb fuel fp).
  by rewrite Hrun in Hload.
Qed.

(** Every integer inside a decoded value fits 64 bits, signed or unsigned,
    provided those that user callbacks return do. *)
Theorem load_int_range (fuel : nat) (fp fp' : Src) (v : value) :
  callbacks_return (everywhere int_in_range) ext_type_to_class o →
  load ext_type_to_class fuel o fp = Ok (v, fp') →
  everywhere int_in_range v.
Proof.
  intros Hcb Hrun.
  pose proof (ensures_load ext_type_to_class o int_in_range) as Hload.
  specialize (Hload I (λ _, I) (λ _ Hz, Hz) (λ _, I) (λ _, I) (λ _, I)
                (λ _ _ _, I)).
  assert (∀ xs, int_in_range (if use_tuple o then VTuple xs else VList xs))
    as Hseq by (intros xs; by destruct (use_tuple o)).
  specialize (Hload Hseq (λ _, I) (λ _ _, I) Hcb fuel fp).
  by rewrite Hrun in Hload.
Qed.

(** Every Extension Object the decoder leaves in a decoded value carries a
    type identifier between -128 and 127, provided those that user
    callbacks return do. *)
Theorem load_ext_type_range (fuel : nat) (fp fp' : Src) (v : value) :
  callbacks_return (everywhere ext_type_in_range) ext_type_to_class o →
  load ext_type_to_class fuel o fp = Ok (v, fp') →
  everywhere ext_type_in_range v.
Proof.
  intros Hcb Hrun.
  pose proof (ensures_load ext_type_to_class o ext_type_in_range) as Hload.
  specialize (Hload I (λ _, I) (λ _ _, I) (λ _, I) (λ _, I) (λ _, I)
                (λ _ _ Ht, Ht)).
  assert (∀ xs, ext_type_in_range
                  (if use_tuple o then VTuple xs else VList xs))
    as Hseq by (intros xs; by destruct (use_tuple o)).
  specialize (Hload Hseq (λ _, I) (λ _ _, I) Hcb fuel fp).
  by rewrite Hrun in Hload.
Qed.

End DecodedValues.

Lemma load_sound_dicts_witness :
  everywhere (sound_dict default_options)
    (VDict false [(VInt 1, VDict false [(VInt 2, VNone)])]).
Proof.
  apply (@load_sound_dicts (list byte) BytesIO BytesIO_lawful ∅
           default_options 3 [x81; x01; x81; x02; xc0] []).
  - apply no_callbacks_return. by split.
  - reflexivity.
Defined.

Lemma load_use_tuple_no_list_witness :
  everywhere (λ v, is_list v = false)
    (VDict false [(VTuple [VInt 1], VTuple [VTuple []])]).
Proof.
  apply (@load_use_tuple_no_list (list byte) BytesIO BytesIO_lawful ∅
           {| use_tuple := true; use_ordered_dict := false;
              allow_invalid_utf8 := false; ext_handlers := ∅ |}
           3 [x81; x91; x01; x91; x90] []).
  - reflexivity.
  - apply no_callbacks_return. by split.
  - reflexivity.
Defined.

Lemma load_int_range_witness :
  everywhere int_in_range (VList [VInt 18446744073709551615; VInt (-128)]).
Proof.
  apply (@load_int_range (list byte) BytesIO BytesIO_lawful ∅
           default_options 2
           [x92; xcf; xff; xff; xff; xff; xff; xff; xff; xff; xd0; x80] []).
  - apply no_callbacks_return. by split.
  - vm_compute. reflexivity.
Defined.

Lemma load_ext_type_range_witness :
  everywhere ext_type_in_range (VList [VExt (-1) [x00]]).
Proof.
  apply (@load_ext_type_range (list byte) BytesIO BytesIO_lawful ∅
           default_options 2 [x91; xd4; xff; x00] []).
  - apply no_callbacks_return. by split.
  - vm_compute. reflexivity.
Defined.

(** ** Arrays and maps of encoded values *)

Lemma encodes_at_fuel (ext_type_to_class : gmap Z ext_class) (o : options)
  (c t : list byte) (v : value) (fuel : nat) :
  encodes ext_type_to_class o c v → (length c < fuel)%nat →
  load ext_type_to_class fuel o (c ++ t) = Ok (v, t).
Proof.
  intros Hc Hfuel.
  destruct (streaming_load _ _ _ _ _ _ Hc) as [c' [Heq [Hext _]]].
  rewrite app_nil_r in Heq. subst c'.
  rewrite (load_more_fuel ext_type_to_class (S (length c)) fuel o);
    [apply Hext | lia | by rewrite Hext].
Qed.

Lemma array_gen_encodings (ext_type_to_class : gmap Z ext_class)
  (o : options) (fuel : nat) (cs : list (list byte)) (vs : list value)
  (t : list byte) :
  Forall2 (encodes ext_type_to_class o) cs vs →
  (length (concat cs) < fuel)%nat →
  _unpack_array_gen (load ext_type_to_class fuel o) (length vs)
    (concat cs ++ t)
  = Ok (vs, t).
Proof.
  induction 1 as [|c v cs vs Hc _ IH]; intros Hfuel; [reflexivity |].
  simpl in Hfuel. rewrite length_app in Hfuel.
  simpl. unfold bind at 1. rewrite <- app_assoc.
  rewrite (encodes_at_fuel _ _ _ _ _ _ Hc) by lia.
  unfold bind at 1. by rewrite IH by lia.
Qed.

Lemma array_gen_short (ext_type_to_class : gmap Z ext_class)
  (o : options) (fuel n : nat) (cs : list (list byte)) (vs : list value) :
  Forall2 (encodes ext_type_to_class o) cs vs →
  (length (concat cs) < fuel)%nat → (length vs < n)%nat →
  _unpack_array_gen (load ext_type_to_class fuel o) n (concat cs)
  = Err InsufficientDataException.
Proof.
  intros Hcs. revert n.
  induction Hcs as [|c v cs vs Hc _ IH]; intros n Hfuel Hn.
  - destruct n as [|n]; [simpl in Hn; lia |]. destruct fuel; [lia |].
    reflexivity.
  - simpl in Hfuel, Hn. rewrite length_app in Hfuel.
    destruct n as [|n]; [lia |].
    simpl. unfold bind at 1.
    rewrite (encodes_at_fuel _ _ _ _ _ _ Hc) by lia.
    unfold bind at 1. by rewrite IH by lia.
Qed.

Lemma unpack_array_header (load : options → M (list byte) value)
  (o : options) (n : nat) (c : byte) (count buf : list byte) :
  array_header n c count →
  _unpack_array load c o (count ++ buf)
  = (g <- _unpack_array_gen (load o) n ;;
     ret (if use_tuple o then VTuple g else VList g)) buf.
Proof.
  intros [[Hlo Hhi] -> | field [Hlo Hhi] Hfield ->].
  - revert Hlo Hhi.
    destruct c; unfold ord at 1 2; simpl Z.of_N; intros Hlo Hhi; try lia;
      reflexivity.
  - revert Hlo Hhi Hfield.
    destruct c; unfold ord at 1 2 3; simpl Z.of_N; intros Hlo Hhi Hfield;
      try lia;
      eval_rhs_in Hfield; unfold _unpack_array; cbv zeta; decide_tests;
      unfold bind at 1; rewrite (re0_BytesIO _ _ _ _ Hfield);
      unfold struct_unpack, lift; decide_tests;
      rewrite (struct_unpack_sized _ _ _ Hfield);
      reflexivity.
Qed.

Lemma load_array_tag (ext_type_to_class : gmap Z ext_class) (fuel : nat)
  (o : options) (n : nat) (c : byte) (count buf : list byte) :
  array_header n c count →
  load ext_type_to_class (S fuel) o (c :: buf)
  = _unpack_array (load ext_type_to_class fuel) c o buf.
Proof.
  intros Hhead. rewrite load_tag.
  assert ((0x90 ≤ ord c ≤ 0x9f) ∨ (0xdc ≤ ord c ≤ 0xdd)) as Htag
    by (destruct Hhead; tauto).
  clear Hhead. revert Htag.
  destruct c; unfold ord; simpl Z.of_N; intros Htag; try lia; reflexivity.
Qed.

(** An array head for [n] elements followed by the encodings of [n] values
    decodes to those values in their order, as a tuple under [use_tuple]
    and as a list otherwise. *)
Theorem loads_array_of_encodings (ext_type_to_class : gmap Z ext_class)
  (o : options) (c : byte) (count : list byte) (cs : list (list byte))
  (vs : list value) (t : list byte) :
  array_header (length vs) c count →
  Forall2 (encodes ext_type_to_class o) cs vs →
  loads ext_type_to_class (VBytes (c :: count ++ concat cs ++ t)) o
  = Ok (if use_tuple o then VTuple vs else VList vs).
Proof.
  intros Hhead Hcs. unfold loads.
  rewrite (load_array_tag _ _ _ _ _ _ _ Hhead).
  rewrite (unpack_array_header _ _ _ _ _ _ Hhead).
  unfold bind. rewrite (array_gen_encodings _ _ _ _ _ _ Hcs); [done |].
  simpl. rewrite !length_app. lia.
Qed.

(** An array head for [n] elements followed by the encodings of fewer
    values, and nothing more, fails for lack of data. *)
Theorem loads_array_too_short (ext_type_to_class : gmap Z ext_class)
  (o : options) (n : nat) (c : byte) (count : list byte)
  (cs : list (list byte)) (vs : list value) :
  array_header n c count →
  Forall2 (encodes ext_type_to_class o) cs vs →
  (length vs < n)%nat →
  loads ext_type_to_class (VBytes (c :: count ++ concat cs)) o
  = Err InsufficientDataException.
Proof.
  intros Hhead Hcs Hn. unfold loads.
  rewrite (load_array_tag _ _ _ _ _ _ _ Hhead).
  rewrite (unpack_array_header _ _ _ _ _ _ Hhead).
  unfold bind. rewrite (array_gen_short _ _ _ _ _ _ Hcs); [done | | done].
  simpl. rewrite !length_app. lia.
Qed.

Lemma loads_array_of_encodings_witness :
  loads ∅ (VBytes (xdc :: [x00; x02] ++ concat [[x01]; [x91; xc0]] ++ [xff]))
    default_options
  = Ok (VList [VInt 1; VList [VNone]]).
Proof.
  apply (loads_array_of_encodings ∅ default_options xdc [x00; x02]
           [[x01]; [x91; xc0]] [VInt 1; VList [VNone]] [xff]).
  - apply (arrayN_header 2 xdc [x00; x02]);
      [unfold ord; simpl; lia | reflexivity | reflexivity].
  - repeat constructor.
Defined.

Lemma loads_array_too_short_witness :
  loads ∅ (VBytes (x93 :: [] ++ concat [[x01]; [x02]])) default_options
  = Err InsufficientDataException.
Proof.
  apply (loads_array_too_short ∅ default_options 3 x93 []
           [[x01]; [x02]] [VInt 1; VInt 2]).
  - apply (fixarray_header 3 x93); [unfold ord; simpl; lia | reflexivity].
  - repeat constructor.
  - simpl. lia.
Defined.

Lemma distinct_keys_app_l (a b : list (value * value)) :
  distinct_keys (a ++ b) → distinct_keys a.
Proof.
  induction b as [|x b IH] using rev_ind.
  - by rewrite app_nil_r.
  - rewrite app_assoc. destruct x as [k v]. intros Hd.
    apply distinct_keys_snoc_inv in Hd as [Hd _]. by apply IH.
Qed.

Lemma map_for_encodings (ext_type_to_class : gmap Z ext_class)
  (o : options) (fuel : nat) (encoded : list (list byte * list byte))
  (entries d : list (value * value)) (t : list byte) :
  Forall2 (λ cc kv, encodes ext_type_to_class o cc.1 kv.1
                    ∧ encodes ext_type_to_class o cc.2 kv.2)
    encoded entries →
  (length (entry_bytes encoded) < fuel)%nat →
  distinct_keys (d ++ keyed entries) →
  _unpack_map_for (load ext_type_to_class fuel o) (length entries) d
    (entry_bytes encoded ++ t)
  = Ok (d ++ keyed entries, t).
Proof.
  intros Hall. revert d.
  induction Hall as [|[kc vc] [k v] encoded entries [Hk Hv] _ IH];
    intros d Hfuel Hd.
  - simpl. by rewrite app_nil_r.
  - assert (entry_bytes ((kc, vc) :: encoded)
            = kc ++ vc ++ entry_bytes encoded) as Hbytes
      by (unfold entry_bytes; simpl; by rewrite <- app_assoc).
    assert (d ++ keyed ((k, v) :: entries)
            = (d ++ [(map_key k, v)]) ++ keyed entries) as Hitems
      by (by rewrite <- app_assoc).
    rewrite Hbytes in Hfuel |- *. rewrite !length_app in Hfuel.
    rewrite <- !app_assoc. rewrite Hitems in Hd |- *.
    simpl in Hk, Hv.
    change (length ((k, v) :: entries)) with (S (length entries)).
    pose proof (distinct_keys_app_l _ _ Hd) as Hd1.
    apply distinct_keys_snoc_inv in Hd1 as (_ & Hhash & Hfresh).
    assert (length kc < fuel)%nat as Hkf by lia.
    rewrite (unpack_map_for_key _ _ _ _ _ k
               (encodes_at_fuel _ _ _ (vc ++ entry_bytes encoded ++ t) _ _
                  Hk Hkf)).
    rewrite Hhash, Hfresh.
    rewrite (encodes_at_fuel _ _ _ _ _ _ Hv) by lia.
    rewrite dict_replace_fresh by done.
    apply IH; [lia | done].
Qed.

Lemma unpack_map_header (load : options → M (list byte) value)
  (o : options) (n : nat) (c : byte) (count buf : list byte) :
  map_header n c count →
  _unpack_map load c o (count ++ buf)
  = (d <- _unpack_map_for (load o) n [] ;;
     ret (VDict (use_ordered_dict o) d)) buf.
Proof.
  intros [[Hlo Hhi] -> | field [Hlo Hhi] Hfield ->].
  - revert Hlo Hhi.
    destruct c; unfold ord at 1 2; simpl Z.of_N; intros Hlo Hhi; try lia;
      reflexivity.
  - revert Hlo Hhi Hfield.
    destruct c; unfold ord at 1 2 3; simpl Z.of_N; intros Hlo Hhi Hfield;
      try lia;
      eval_rhs_in Hfield; unfold _unpack_map; cbv zeta; decide_tests;
      unfold bind at 1; rewrite (re0_BytesIO _ _ _ _ Hfield);
      unfold struct_unpack, lift; decide_tests;
      rewrite (struct_unpack_sized _ _ _ Hfield);
      reflexivity.
Qed.

Lemma load_map_tag (ext_type_to_class : gmap Z ext_class) (fuel : nat)
  (o : options) (n : nat) (c : byte) (count buf : list byte) :
  map_header n c count →
  load ext_type_to_class (S fuel) o (c :: buf)
  = _unpack_map (load ext_type_to_class fuel) c o buf.
Proof.
  intros Hhead. rewrite load_tag.
  assert ((0x80 ≤ ord c ≤ 0x8f) ∨ (0xde ≤ ord c ≤ 0xdf)) as Htag
    by (destruct Hhead; tauto).
  clear Hhead. revert Htag.
  destruct c; unfold ord; simpl Z.of_N; intros Htag; try lia; reflexivity.
Qed.

(** A map head for [n] entries followed by the encodings of [n] keys and
    values, the keys hashable and pairwise different once lists are made
    tuples, decodes to the dictionary of these entries in their order. *)
Theorem loads_map_of_encodings (ext_type_to_class : gmap Z ext_class)
  (o : options) (c : byte) (count : list byte)
  (encoded : list (list byte * list byte)) (entries : list (value * value))
  (t : list byte) :
  map_header (length entries) c count →
  Forall2 (λ cc kv, encodes ext_type_to_class o cc.1 kv.1
                    ∧ encodes ext_type_to_class o cc.2 kv.2)
    encoded entries →
  distinct_keys (keyed entries) →
  loads ext_type_to_class (VBytes (c :: count ++ entry_bytes encoded ++ t)) o
  = Ok (VDict (use_ordered_dict o) (keyed entries)).
Proof.
  intros Hhead Hall Hd. unfold loads.
  rewrite (load_map_tag _ _ _ _ _ _ _ Hhead).
  rewrite (unpack_map_header _ _ _ _ _ _ Hhead).
  unfold bind.
  rewrite (map_for_encodings _ _ _ _ _ [] _ Hall); [done | | done].
  simpl. rewrite !length_app. lia.
Qed.

Lemma loads_map_of_encodings_witness :
  loads ∅
    (VBytes (x82 :: [] ++ entry_bytes [([x90], [x01]); ([xa1; x61], [x90])]
                  ++ []))
    default_options
  = Ok (VDict false [(VTuple [], VInt 1); (VStr [0x61], VList [])]).
Proof.
  apply (loads_map_of_encodings ∅ default_options x82 []
           [([x90], [x01]); ([xa1; x61], [x90])]
           [(VList [], VInt 1); (VStr [0x61], VList [])] []).
  - apply (fixmap_header 2 x82); [unfold ord; simpl; lia | reflexivity].
  - repeat constructor.
  - apply (distinct_snoc [(VTuple [], VInt 1)] (VStr [0x61]) (VList []));
      [| reflexivity | reflexivity].
    by apply (distinct_snoc [] (VTuple []) (VInt 1)); [constructor | |].
Defined.

(** ** Decoding from a chunked transport *)

Lemma chunked_loop_pending (fuel n : nat) (data out : list byte)
  (cs rest : list (list byte)) :
  Forall (λ c, c ≠ []) cs →
  _read_loop fuel n data cs = Ok (out, rest) →
  Forall (λ c, c ≠ []) rest.
Proof.
  revert data cs. induction fuel as [|fuel IH]; intros data cs Hcs; simpl.
  - destruct (length data <? n)%nat; [done |]. by intros [= _ <-].
  - destruct (length data <? n)%nat; [| by intros [= _ <-]].
    destruct cs as [|c cs]; [done |]. rewrite read_chunked_cons.
    inversion Hcs as [|? ? Hc Hcs']; subst.
    destruct (Nat.leb_spec (length c) (n - length data)) as [Hfit|Hbig];
      cbv beta iota.
    + destruct (length c =? 0)%nat; [done |]. by apply IH.
    + destruct (length (take (n - length data) c) =? 0)%nat; [done |].
      apply IH. constructor; [| done]. intros Hnil.
      apply (f_equal length) in Hnil. rewrite length_drop in Hnil.
      simpl in Hnil. lia.
Qed.

Lemma same_run_read_except (n : nat) :
  same_run (_read_except n) (_read_except n).
Proof.
  intros cs s [Hcs <-]. rewrite read_except_BytesIO.
  destruct (Nat.leb_spec n (length (concat cs))) as [Hle|Hlt].
  - destruct (chunked_read_exact n cs Hcs Hle) as [rest [Hrun Hrest]].
    rewrite Hrun. split; [done |]. split; [| done].
    destruct (Nat.eq_dec n 0) as [->|Hn].
    + rewrite read_except_zero in Hrun. by injection Hrun as <-.
    + rewrite read_except_as_loop in Hrun by done.
      by apply (chunked_loop_pending _ _ _ _ _ _ Hcs Hrun).
  - by rewrite chunked_read_short.
Qed.

Section SameRun.

Context {A B : Type}.

Lemma same_run_ret (a : A) : same_run (ret a) (ret a).
Proof. by intros cs s Hcs. Qed.

Lemma same_run_raise (e : exn) : same_run (@raise _ A e) (raise e).
Proof. by intros cs s Hcs. Qed.

Lemma same_run_lift (x : result A) : same_run (lift x) (lift x).
Proof. intros cs s Hcs. unfold lift. by destruct x. Qed.

Lemma same_run_bind (m1 : M (list (list byte)) A) (m2 : M (list byte) A)
  (k1 : A → M (list (list byte)) B) (k2 : A → M (list byte) B) :
  same_run m1 m2 → (∀ a, same_run (k1 a) (k2 a)) →
  same_run (bind m1 k1) (bind m2 k2).
Proof.
  intros Hm Hk cs s Hcs. unfold bind. specialize (Hm cs s Hcs).
  destruct (m1 cs) as [[a1 cs']|e1], (m2 s) as [[a2 s']|e2]; try done.
  destruct Hm as [-> Hcs']. by apply Hk.
Qed.

End SameRun.

Lemma same_run_re0 (fmt : string) (n : nat) :
  same_run (_re0 fmt n) (_re0 fmt n).
Proof.
  apply same_run_bind; [apply same_run_read_except |].
  intros data. apply same_run_lift.
Qed.

Lemma same_run_as_int (v : value) : same_run (as_int v) (as_int v).
Proof. destruct v; first [apply same_run_ret | apply same_run_raise]. Qed.

Ltac same_run_step :=
  match goal with
  | |- same_run (bind _ _) (bind _ _) => apply same_run_bind; [| intros ?]
  | |- same_run (ret _) (ret _) => apply same_run_ret
  | |- same_run (raise _) (raise _) => apply same_run_raise
  | |- same_run _fail _fail => apply same_run_raise
  | |- same_run (lift _) (lift _) => apply same_run_lift
  | |- same_run (_read_except _) (_read_except _) =>
      apply same_run_read_except
  | |- same_run (_re0 _ _) (_re0 _ _) => apply same_run_re0
  | |- same_run (as_int _) (as_int _) => apply same_run_as_int
  | |- same_run (match ?x with _ => _ end) (match ?x with _ => _ end) =>
      destruct x
  end.

Lemma same_run_unpack_array_gen (load1 : M (list (list byte)) value)
  (load2 : M (list byte) value) (n : nat) :
  same_run load1 load2 →
  same_run (_unpack_array_gen load1 n) (_unpack_array_gen load2 n).
Proof. intros Hload. induction n; simpl; repeat same_run_step; done. Qed.

Lemma same_run_unpack_map_for (load1 : M (list (list byte)) value)
  (load2 : M (list byte) value) (n : nat) (d : list (value * value)) :
  same_run load1 load2 →
  same_run (_unpack_map_for load1 n d) (_unpack_map_for load2 n d).
Proof.
  intros Hload. revert d.
  induction n; intros d; simpl; cbv zeta; repeat same_run_step; done.
Qed.

Lemma same_run_load_body (ext_type_to_class : gmap Z ext_class)
  (load1 : options → M (list (list byte)) value)
  (load2 : options → M (list byte) value) (o : options) :
  (∀ o, same_run (load1 o) (load2 o)) →
  same_run (load_body ext_type_to_class load1 o)
           (load_body ext_type_to_class load2 o).
Proof.
  intros Hload.
  pose proof (same_run_unpack_array_gen (load1 o) (load2 o)) as Hgen.
  pose proof (same_run_unpack_map_for (load1 o) (load2 o)) as Hfor.
  unfold load_body, _unpack_integer, _unpack_float, _unpack_string,
    _unpack_binary, _unpack_ext, ext_resolve, _unpack_array, _unpack_map.
  cbv zeta. repeat same_run_step; auto.
Qed.

Lemma same_run_load (ext_type_to_class : gmap Z ext_class) (fuel : nat)
  (o : options) :
  same_run (load ext_type_to_class fuel o) (load ext_type_to_class fuel o).
Proof.
  revert o. induction fuel as [|fuel IH]; intros o.
  - apply same_run_raise.
  - by apply same_run_load_body.
Qed.

(** However a stream is cut into non-empty chunks, [load] over the chunks
    ends as [load] over the whole stream does: the same value, with the same
    bytes left unread, or the same exception. *)
Theorem load_chunked (ext_type_to_class : gmap Z ext_class) (fuel : nat)
  (o : options) (cs : list (list byte)) :
  Forall (λ c, c ≠ []) cs →
  match load ext_type_to_class fuel o cs with
  | Ok (v, rest) =>
      load ext_type_to_class fuel o (concat cs) = Ok (v, concat rest)
  | Err e => load ext_type_to_class fuel o (concat cs) = Err e
  end.
Proof.
  intros Hcs.
  pose proof (same_run_load ext_type_to_class fuel o cs (concat cs)
                (conj Hcs eq_refl)) as Hsame.
  destruct (load ext_type_to_class fuel o cs) as [[v rest]|e],
    (load ext_type_to_class fuel o (concat cs)) as [[v' s']|e']; try done.
  - by destruct Hsame as [-> [_ ->]].
  - by subst.
Qed.

Lemma load_chunked_witness :
  load ∅ 2 default_options (concat [[x92]; [xcd; x01]; [x02; x03; xff]])
  = Ok (VList [VInt 258; VInt 3], [xff]).
Proof.
  apply (load_chunked ∅ 2 default_options
           [[x92]; [xcd; x01]; [x02; x03; xff]]).
  repeat constructor; discriminate.
Defined.

(** ** Setting [allow_invalid_utf8] *)

Section Permissive.

Context {Src : Type} `{!ByteSource Src}.
Variable ext_type_to_class : gmap Z ext_class.

Let e : exn := InvalidStringException.

Lemma agree_unless_refl {A} (m : M Src A) : agree_unless e m m.
Proof. by intros fp _. Qed.

Lemma agree_unless_raise {A} (m : M Src A) : agree_unless e (raise e) m.
Proof. intros fp Hfp. by destruct Hfp. Qed.

Lemma agree_unless_bind {A B} (m m' : M Src A) (k k' : A → M Src B) :
  agree_unless e m m' → (∀ a, agree_unless e (k a) (k' a)) →
  agree_unless e (bind m k) (bind m' k').
Proof.
  intros Hm Hk fp. unfold bind. intros Hrun.
  rewrite (Hm fp); [| by intros Hinv; rewrite Hinv in Hrun].
  destruct (m fp) as [[a fp']|e']; [by apply Hk | done].
Qed.

Ltac permissive_step :=
  match goal with
  | |- agree_unless _ ?m ?m => apply agree_unless_refl
  | |- agree_unless _ (raise InvalidStringException) _ =>
      apply agree_unless_raise
  | |- agree_unless _ (bind _ _) (bind _ _) =>
      apply agree_unless_bind; [| intros ?]
  | |- agree_unless _ (match ?x with _ => _ end)
         (match ?x with _ => _ end) => destruct x
  | |- agree_unless _ (if ?c then _ else _) _ => destruct c
  end.

Lemma permissive_unpack_array_gen (load load' : M Src value) (n : nat) :
  agree_unless e load load' →
  agree_unless e (_unpack_array_gen load n) (_unpack_array_gen load' n).
Proof. intros Hload. induction n; simpl; repeat permissive_step; done. Qed.

Lemma permissive_unpack_map_for (load load' : M Src value) (n : nat) d :
  agree_unless e load load' →
  agree_unless e (_unpack_map_for load n d) (_unpack_map_for load' n d).
Proof.
  intros Hload. revert d.
  induction n; intros d; simpl; cbv zeta; repeat permissive_step; done.
Qed.

Lemma permissive_load_body (load load' : options → M Src value) o :
  agree_unless e (load o) (load' (permissive o)) →
  agree_unless e (load_body ext_type_to_class load o)
    (load_body ext_type_to_class load' (permissive o)).
Proof.
  intros Hload.
  pose proof (permissive_unpack_array_gen (load o) (load' (permissive o)))
    as Hgen.
  pose proof (permissive_unpack_map_for (load o) (load' (permissive o)))
    as Hfor.
  unfold load_body, _unpack_string, _unpack_ext, ext_resolve,
    _unpack_array, _unpack_map.
  cbv zeta. cbn [permissive use_tuple use_ordered_dict allow_invalid_utf8
                 ext_handlers].
  repeat permissive_step; auto.
Qed.

Lemma permissive_load (fuel : nat) (o : options) :
  agree_unless e (load ext_type_to_class fuel o)
    (load ext_type_to_class fuel (permissive o)).
Proof.
  induction fuel as [|fuel IH].
  - apply agree_unless_refl.
  - by apply permissive_load_body.
Qed.

End Permissive.

(** Setting [allow_invalid_utf8] changes no run of [load] except those that
    end in [InvalidStringException]: the same value is decoded, the same
    bytes are left, the same other exception is raised. *)
Theorem load_permissive {Src : Type} `{!ByteSource Src}
  (ext_type_to_class : gmap Z ext_class) (fuel : nat) (o : options)
  (fp : Src) :
  load ext_type_to_class fuel o fp ≠ Err InvalidStringException →
  load ext_type_to_class fuel (permissive o) fp
  = load ext_type_to_class fuel o fp.
Proof. apply permissive_load. Qed.

Lemma load_permissive_witness :
  load ∅ 2 (permissive default_options) [x92; xa1; x61; xc1]
  = load ∅ 2 default_options [x92; xa1; x61; xc1].
Proof.
  apply (@load_permissive (list byte) BytesIO ∅ 2 default_options
           [x92; xa1; x61; xc1]).
  vm_compute. discriminate.
Defined.

Example permissive_changes_invalid_strings :
  load ∅ 2 default_options [x91; xa1; xff] = Err InvalidStringException
  ∧ load ∅ 2 (permissive default_options) [x91; xa1; xff]
    = Ok (VList [VBytes [xff]], []).
Proof. split; reflexivity. Qed.

(** ** Setting [use_ordered_dict] *)

Section Related.

Context {Src : Type} `{!ByteSource Src}.

Lemma related_eq_refl {A} (m : M Src A) : related eq m m.
Proof. intros fp. by destruct (m fp) as [[a f]|e]. Qed.

Lemma related_ret {A B} (R : A → B → Prop) (a : A) (b : B) :
  R a b → related R (@ret Src A a) (ret b).
Proof. by intros Hab fp. Qed.

Lemma related_raise {A B} (R : A → B → Prop) (e : exn) :
  related R (@raise Src A e) (raise e).
Proof. by intros fp. Qed.

Lemma related_bind {A A' B B'} (R : A → A' → Prop) (R' : B → B' → Prop)
  (m : M Src A) (m' : M Src A') (k : A → M Src B) (k' : A' → M Src B') :
  related R m m' → (∀ a a', R a a' → related R' (k a) (k' a')) →
  related R' (bind m k) (bind m' k').
Proof.
  intros Hm Hk fp. unfold bind. specialize (Hm fp).
  destruct (m fp) as [[a f]|e], (m' fp) as [[a' f']|e']; try done.
  destruct Hm as [Hab <-]. by apply Hk.
Qed.

Lemma related_results {A} (R : A → A → Prop) (m : M Src A) :
  (∀ fp a f, m fp = Ok (a, f) → R a a) → related R m m.
Proof.
  intros Hm fp. specialize (Hm fp).
  destruct (m fp) as [[a f]|e]; [| done]. split; [by eapply Hm | done].
Qed.

End Related.

Section WithOrdered.

Variable b : bool.

Local Abbreviation w := (with_ordered b).

Local Abbreviation wd :=
  (map (λ kv : value * value, match kv with (k, x) => (k, w x) end)).

Lemma with_ordered_is_list (v : value) : is_list (w v) = is_list v.
Proof. by destruct v. Qed.

Lemma with_ordered_hashable (v : value) : hashable (w v) = hashable v.
Proof.
  induction v as [v Hv|xs IH|xs IH|ordered items IH] using value_deep_ind;
    try done; [by destruct v |].
  simpl. induction IH as [|x xs Hx _ IHxs]; [done |].
  simpl. by rewrite Hx, IHxs.
Qed.

Lemma with_ordered_hashable_id (v : value) : hashable v = true → w v = v.
Proof.
  induction v as [v Hv|xs IH|xs IH|ordered items IH] using value_deep_ind;
    try done; [by destruct v |].
  simpl. intros Hxs. f_equal.
  induction IH as [|x xs Hx _ IHxs]; [done |].
  simpl in Hxs. apply andb_true_iff in Hxs as [Hh Hhs].
  simpl. by rewrite Hx, IHxs.
Qed.

Lemma with_ordered_deep (v : value) :
  _deep_list_to_tuple (w v) = w (_deep_list_to_tuple v).
Proof.
  induction v as [xs IH | v Hv] using value_list_ind.
  - simpl. f_equal. rewrite !map_map.
    induction IH as [|x xs Hx _ IHxs]; [done |]. simpl. by rewrite Hx, IHxs.
  - by destruct v.
Qed.

Lemma with_ordered_map_key (k : value) : map_key (w k) = w (map_key k).
Proof.
  unfold map_key. rewrite with_ordered_is_list.
  destruct (is_list k); [apply with_ordered_deep | done].
Qed.

Lemma with_ordered_contains (k : value) (d : list (value * value)) :
  dict_contains k (wd d) = dict_contains k d.
Proof.
  induction d as [|[k' x] d IH]; [done |].
  unfold dict_contains in *. simpl. by rewrite IH.
Qed.

Lemma with_ordered_replace (k v : value) (d : list (value * value)) :
  dict_replace k (w v) (wd d) = wd (dict_replace k v d).
Proof.
  induction d as [|[k' x] d IH]; [done |].
  simpl. destruct (key_eq k k'); [done |]. simpl. by rewrite IH.
Qed.

Lemma struct_unpack_with_ordered (fmt : string) (data : list byte) (v : value) :
  struct_unpack fmt data = Ok v → w v = v.
Proof.
  unfold struct_unpack.
  repeat match goal with
         | |- context [if ?c then _ else _] => destruct c
         end; by intros [= <-].
Qed.

Context {Src : Type} `{!ByteSource Src}.
Variable ext_type_to_class : gmap Z ext_class.
Variable o : options.
Hypothesis callbacks_unchanged :
  callbacks_return (λ v, with_ordered b v = v) ext_type_to_class o.

Let R (v v' : value) : Prop := v' = w v.

Lemma related_re0_value (fmt : string) (n : nat) :
  related R (_re0 (Src:=Src) fmt n) (_re0 fmt n).
Proof.
  apply related_results. intros fp v f. unfold _re0, bind, lift.
  destruct (_read_except n fp) as [[data f']|e']; [| done].
  destruct (struct_unpack fmt data) as [v'|e'] eqn:Hunpack; [| done].
  intros [= <- _]. unfold R. symmetry.
  by apply (struct_unpack_with_ordered fmt data).
Qed.

Lemma related_lift_unpack (fmt : string) (data : list byte) :
  related R (lift (Src:=Src) (struct_unpack fmt data))
    (lift (struct_unpack fmt data)).
Proof.
  apply related_results. intros fp v f. unfold lift.
  destruct (struct_unpack fmt data) as [v'|e'] eqn:Hunpack; [| done].
  intros [= <- _]. unfold R. symmetry.
  by apply (struct_unpack_with_ordered fmt data).
Qed.

Lemma related_ext_resolve (t : Z) (data : list byte) :
  related R (ext_resolve (Src:=Src) ext_type_to_class o t data)
    (ext_resolve ext_type_to_class (ordered_as b o) t data).
Proof.
  change (ext_resolve ext_type_to_class (ordered_as b o) t data)
    with (ext_resolve (Src:=Src) ext_type_to_class o t data).
  apply related_results. intros fp v f. unfold ext_resolve, ret, raise.
  destruct callbacks_unchanged as [Hhandlers Hclasses].
  destruct (ext_handlers o !! t) as [handler|] eqn:Hhandler.
  - destruct (handler (VExt t data)) as [v'|name] eqn:Hcall; [| done].
    intros [= <- _]. unfold R. symmetry.
    by apply (Hhandlers t handler (VExt t data)).
  - destruct (ext_type_to_class !! t) as [cls|] eqn:Hcls.
    + destruct (unpackb cls) as [g|] eqn:Hg; [| done].
      destruct (g data) as [v'|name] eqn:Hcall.
      * intros [= <- _]. unfold R. symmetry.
        by apply (Hclasses t cls g data).
      * by destruct (String.eqb name "AttributeError").
    + by intros [= <- _].
Qed.

Lemma related_unpack_array_gen (load load' : M Src value) (n : nat) :
  related R load load' →
  related (λ vs vs', vs' = map w vs) (_unpack_array_gen load n)
    (_unpack_array_gen load' n).
Proof.
  intros Hload. induction n as [|n IH]; simpl.
  - by apply related_ret.
  - eapply related_bind; [exact Hload |]. intros v v' ->.
    eapply related_bind; [exact IH |]. intros vs vs' ->.
    by apply related_ret.
Qed.

Lemma related_unpack_map_for (load load' : M Src value) (n : nat)
  (d : list (value * value)) :
  related R load load' →
  related (λ d1 d2, d2 = wd d1) (_unpack_map_for load n d)
    (_unpack_map_for load' n (wd d)).
Proof.
  intros Hload. revert d. induction n as [|n IH]; intros d; simpl.
  - by apply related_ret.
  - eapply related_bind; [exact Hload |]. intros k k' ->. cbv zeta.
    fold (map_key k). fold (map_key (w k)).
    rewrite with_ordered_map_key. unfold py_hash.
    rewrite with_ordered_hashable.
    destruct (hashable (map_key k)) eqn:Hhash; [| apply related_raise].
    rewrite (with_ordered_hashable_id _ Hhash), with_ordered_contains.
    destruct (dict_contains (map_key k) d); [apply related_raise |].
    eapply related_bind; [exact Hload |]. intros v v' ->.
    unfold dict_setitem. rewrite Hhash, with_ordered_replace. apply IH.
Qed.

Ltac related_step :=
  match goal with
  | |- related _ (bind (_unpack_array_gen _ _) _) _ =>
      eapply related_bind;
      [apply related_unpack_array_gen; assumption | intros ? ? ->]
  | |- related _ (bind (_unpack_map_for _ _ _) _) _ =>
      eapply related_bind;
      [apply (related_unpack_map_for _ _ _ []); assumption | intros ? ? ->]
  | |- related _ (bind ?m _) (bind ?m _) =>
      eapply related_bind; [apply related_eq_refl | intros ? ? <-]
  | |- related _ (_re0 _ _) (_re0 _ _) => apply related_re0_value
  | |- related _ (lift (struct_unpack _ _)) _ => apply related_lift_unpack
  | |- related _ (ext_resolve _ _ _ _) _ => apply related_ext_resolve
  | |- related _ (ret _) (ret _) => apply related_ret; reflexivity
  | |- related _ (ret (if ?c then _ else _)) _ =>
      destruct c; apply related_ret; reflexivity
  | |- related _ (raise _) (raise _) => apply related_raise
  | |- related _ _fail _fail => apply related_raise
  | |- related _ (match ?l !! ?i with _ => _ end) _ =>
      destruct (l !! i) eqn:?
  | |- related _ (match ?x with _ => _ end) (match ?x with _ => _ end) =>
      destruct x
  end.

Lemma nil_or_boolean_with_ordered (i : nat) (v : value) :
  [VNone; VInt 0; VBool false; VBool true] !! i = Some v → w v = v.
Proof. destruct i as [|[|[|[|i]]]]; by intros [= <-]. Qed.

Lemma related_load_body (load load' : options → M Src value) :
  related R (load o) (load' (ordered_as b o)) →
  related R (load_body ext_type_to_class load o)
    (load_body ext_type_to_class load' (ordered_as b o)).
Proof.
  intros Hload.
  unfold load_body, _unpack_integer, _unpack_float, _unpack_string,
    _unpack_binary, _unpack_ext, _unpack_array, _unpack_map.
  cbv zeta. cbn [ordered_as use_tuple use_ordered_dict allow_invalid_utf8].
  repeat related_step.
  apply related_ret. unfold R. symmetry.
  by eapply nil_or_boolean_with_ordered.
Qed.

Lemma related_load (fuel : nat) :
  related R (load ext_type_to_class fuel o)
    (load ext_type_to_class fuel (ordered_as b o)).
Proof.
  induction fuel as [|fuel IH].
  - apply related_raise.
  - by apply related_load_body.
Qed.

End WithOrdered.

(** [use_ordered_dict] changes the type of the dictionaries and nothing
    else: with the option set to [b], [load] raises the same exception, or
    reads the same bytes and returns the same value with every dictionary
    of type [b] (provided the values that user callbacks return hold no
    dictionary of the other type). *)
Theorem load_ordered_dict {Src : Type} `{!ByteSource Src}
  (ext_type_to_class : gmap Z ext_class) (b : bool) (fuel : nat)
  (o : options) (fp : Src) :
  callbacks_return (λ v, with_ordered b v = v) ext_type_to_class o →
  match load ext_type_to_class fuel o fp with
  | Ok (v, fp') =>
      load ext_type_to_class fuel (ordered_as b o) fp
      = Ok (with_ordered b v, fp')
  | Err e => load ext_type_to_class fuel (ordered_as b o) fp = Err e
  end.
Proof.
  intros Hcb.
  pose proof (related_load b ext_type_to_class o Hcb fuel fp) as Hrel.
  destruct (load ext_type_to_class fuel o fp) as [[v f]|e],
    (load ext_type_to_class fuel (ordered_as b o) fp) as [[v' f']|e'];
    try done.
  - by destruct Hrel as [-> ->].
  - by subst.
Qed.

Lemma load_ordered_dict_witness :
  load ∅ 3 (ordered_as true default_options) [x91; x81; x01; x80]
  = Ok (VList [VDict true [(VInt 1, VDict true [])]], []).
Proof.
  apply (@load_ordered_dict (list byte) BytesIO ∅ true 3 default_options
           [x91; x81; x01; x80]).
  apply no_callbacks_return. by split.
Defined.

(** ** Setting [use_tuple] *)

Lemma map_key_deep (k : value) : map_key k = _deep_list_to_tuple k.
Proof. by destruct k. Qed.

Lemma tuplify_not_list (v : value) : is_list (tuplify v) = false.
Proof. by destruct v. Qed.

Lemma tuplify_fixed_not_list (v : value) : tuplify v = v → is_list v = false.
Proof. by destruct v. Qed.

Lemma tuplify_hashable_id (v : value) : hashable v = true → tuplify v = v.
Proof.
  induction v as [v Hv|xs IH|xs IH|ordered items IH] using value_deep_ind;
    try done; [by destruct v |].
  simpl. intros Hxs. f_equal.
  induction IH as [|x xs Hx _ IHxs]; [done |].
  simpl in Hxs. apply andb_true_iff in Hxs as [Hh Hhs].
  simpl. by rewrite Hx, IHxs.
Qed.

(** On a settled value, making every list a tuple and making the lists
    outside dictionaries tuples agree on what is hashable, and give the
    same key when it is. *)
Lemma tuplify_deep (v : value) :
  settled v →
  hashable (tuplify v) = hashable (_deep_list_to_tuple v)
  ∧ (hashable (_deep_list_to_tuple v) = true →
     tuplify v = _deep_list_to_tuple v).
Proof.
  induction v as [xs IH | v Hv] using value_list_ind.
  - intros Hs. inversion Hs as [xs' Hxs | |v' Hnl Hfix]; subst;
      [| simpl in Hnl; discriminate].
    simpl. clear Hs. revert Hxs.
    induction IH as [|x xs Hx _ IHxs]; intros Hxs; [done |].
    inversion Hxs as [|? ? Hsx Hsxs]; subst.
    destruct (Hx Hsx) as [Hh Heq]. destruct (IHxs Hsxs) as [Hhs Heqs].
    simpl in Hhs, Heqs |- *. rewrite Hh, Hhs. split; [done |].
    intros Hall. apply andb_true_iff in Hall as [H1 H2].
    specialize (Heq H1). specialize (Heqs H2).
    injection Heqs as Heqs. by rewrite Heq, Heqs.
  - intros Hs.
    assert (_deep_list_to_tuple v = v) as -> by (by destruct v).
    inversion Hs as [xs Hxs | ordered items |v' Hnl Hfix]; subst;
      [done | done | by rewrite Hfix].
Qed.

Section WithTuples.

Local Abbreviation T := tuplify.

Local Abbreviation Td :=
  (map (λ kv : value * value, match kv with (k, x) => (k, T x) end)).

Lemma tuplify_contains (k : value) (d : list (value * value)) :
  dict_contains k (Td d) = dict_contains k d.
Proof.
  induction d as [|[k' x] d IH]; [done |].
  unfold dict_contains in *. simpl. by rewrite IH.
Qed.

Lemma tuplify_replace (k v : value) (d : list (value * value)) :
  dict_replace k (T v) (Td d) = Td (dict_replace k v d).
Proof.
  induction d as [|[k' x] d IH]; [done |].
  simpl. destruct (key_eq k k'); [done |]. simpl. by rewrite IH.
Qed.

Lemma struct_unpack_settled (fmt : string) (data : list byte) (v : value) :
  struct_unpack fmt data = Ok v → T v = v ∧ is_list v = false.
Proof.
  unfold struct_unpack.
  repeat match goal with
         | |- context [if ?c then _ else _] => destruct c
         end; by intros [= <-].
Qed.

Context {Src : Type} `{!ByteSource Src}.
Variable ext_type_to_class : gmap Z ext_class.
Variable o : options.
Hypothesis lists_by_default : use_tuple o = false.
Hypothesis callbacks_unchanged :
  callbacks_return (λ v, tuplify v = v) ext_type_to_class o.

Let R (v v' : value) : Prop := v' = T v ∧ settled v.

Lemma related_fixed (v : value) : T v = v → R v v.
Proof.
  intros Hfix. split; [done |].
  apply settled_other; [by apply tuplify_fixed_not_list | done].
Qed.

Lemma tuples_re0_value (fmt : string) (n : nat) :
  related R (_re0 (Src:=Src) fmt n) (_re0 fmt n).
Proof.
  apply related_results. intros fp v f. unfold _re0, bind, lift.
  destruct (_read_except n fp) as [[data f']|e']; [| done].
  destruct (struct_unpack fmt data) as [v'|e'] eqn:Hunpack; [| done].
  intros [= <- _]. apply related_fixed.
  by apply (struct_unpack_settled fmt data).
Qed.

Lemma tuples_lift_unpack (fmt : string) (data : list byte) :
  related R (lift (Src:=Src) (struct_unpack fmt data))
    (lift (struct_unpack fmt data)).
Proof.
  apply related_results. intros fp v f. unfold lift.
  destruct (struct_unpack fmt data) as [v'|e'] eqn:Hunpack; [| done].
  intros [= <- _]. apply related_fixed.
  by apply (struct_unpack_settled fmt data).
Qed.

Lemma tuples_ext_resolve (t : Z) (data : list byte) :
  related R (ext_resolve (Src:=Src) ext_type_to_class o t data)
    (ext_resolve ext_type_to_class (with_tuples o) t data).
Proof.
  change (ext_resolve ext_type_to_class (with_tuples o) t data)
    with (ext_resolve (Src:=Src) ext_type_to_class o t data).
  apply related_results. intros fp v f. unfold ext_resolve, ret, raise.
  destruct callbacks_unchanged as [Hhandlers Hclasses].
  destruct (ext_handlers o !! t) as [handler|] eqn:Hhandler.
  - destruct (handler (VExt t data)) as [v'|name] eqn:Hcall; [| done].
    intros [= <- _]. apply related_fixed.
    by apply (Hhandlers t handler (VExt t data)).
  - destruct (ext_type_to_class !! t) as [cls|] eqn:Hcls.
    + destruct (unpackb cls) as [g|] eqn:Hg; [| done].
      destruct (g data) as [v'|name] eqn:Hcall.
      * intros [= <- _]. apply related_fixed.
        by apply (Hclasses t cls g data).
      * by destruct (String.eqb name "AttributeError").
    + intros [= <- _]. by apply related_fixed.
Qed.

Lemma tuples_unpack_array_gen (load load' : M Src value) (n : nat) :
  related R load load' →
  related (λ vs vs', vs' = map T vs ∧ Forall settled vs)
    (_unpack_array_gen load n) (_unpack_array_gen load' n).
Proof.
  intros Hload. induction n as [|n IH]; simpl.
  - by apply related_ret.
  - eapply related_bind; [exact Hload |]. intros v v' [-> Hv].
    eapply related_bind; [exact IH |]. intros vs vs' [-> Hvs].
    apply related_ret. split; [done | by constructor].
Qed.

Lemma tuples_unpack_map_for (load load' : M Src value) (n : nat)
  (d : list (value * value)) :
  related R load load' →
  related (λ d1 d2, d2 = Td d1) (_unpack_map_for load n d)
    (_unpack_map_for load' n (Td d)).
Proof.
  intros Hload. revert d. induction n as [|n IH]; intros d; simpl.
  - by apply related_ret.
  - eapply related_bind; [exact Hload |]. intros k k' [-> Hk]. cbv zeta.
    rewrite tuplify_not_list. fold (map_key k). rewrite map_key_deep.
    destruct (tuplify_deep k Hk) as [Hh Heq].
    unfold py_hash. rewrite Hh.
    destruct (hashable (_deep_list_to_tuple k)) eqn:Hhash;
      [| apply related_raise].
    rewrite (Heq eq_refl), tuplify_contains.
    destruct (dict_contains (_deep_list_to_tuple k) d);
      [apply related_raise |].
    eapply related_bind; [exact Hload |]. intros v v' [-> Hv].
    unfold dict_setitem. rewrite Hhash, tuplify_replace. apply IH.
Qed.

Ltac tuples_step :=
  match goal with
  | |- related _ (bind (_unpack_array_gen _ _) _) _ =>
      eapply related_bind;
      [apply tuples_unpack_array_gen; assumption | intros ? ? [-> ?]]
  | |- related _ (bind (_unpack_map_for _ _ _) _) _ =>
      eapply related_bind;
      [apply (tuples_unpack_map_for _ _ _ []); assumption | intros ? ? ->]
  | |- related _ (bind ?m _) (bind ?m _) =>
      eapply related_bind; [apply related_eq_refl | intros ? ? <-]
  | |- related _ (_re0 _ _) (_re0 _ _) => apply tuples_re0_value
  | |- related _ (lift (struct_unpack _ _)) _ => apply tuples_lift_unpack
  | |- related _ (ext_resolve _ _ _ _) _ => apply tuples_ext_resolve
  | |- related _ (ret (VList _)) (ret (VTuple _)) =>
      apply related_ret; split; [reflexivity | by apply settled_list]
  | |- related _ (ret (VDict _ _)) (ret (VDict _ _)) =>
      apply related_ret; split; [reflexivity | apply settled_dict]
  | |- related _ (ret _) (ret _) =>
      apply related_ret, related_fixed; reflexivity
  | |- related _ (raise _) (raise _) => apply related_raise
  | |- related _ _fail _fail => apply related_raise
  | |- related _ (match ?l !! ?i with _ => _ end) _ =>
      destruct (l !! i) eqn:?
  | |- related _ (match ?x with _ => _ end) (match ?x with _ => _ end) =>
      destruct x
  end.

Lemma nil_or_boolean_tuplify (i : nat) (v : value) :
  [VNone; VInt 0; VBool false; VBool true] !! i = Some v → T v = v.
Proof. destruct i as [|[|[|[|i]]]]; by intros [= <-]. Qed.

Lemma tuples_load_body (load load' : options → M Src value) :
  related R (load o) (load' (with_tuples o)) →
  related R (load_body ext_type_to_class load o)
    (load_body ext_type_to_class load' (with_tuples o)).
Proof.
  intros Hload.
  unfold load_body, _unpack_integer, _unpack_float, _unpack_string,
    _unpack_binary, _unpack_ext, _unpack_array, _unpack_map.
  cbv zeta. cbn [with_tuples use_tuple use_ordered_dict allow_invalid_utf8].
  rewrite lists_by_default.
  repeat tuples_step.
  apply related_ret, related_fixed. by eapply nil_or_boolean_tuplify.
Qed.

Lemma tuples_load (fuel : nat) :
  related R (load ext_type_to_class fuel o)
    (load ext_type_to_class fuel (with_tuples o)).
Proof.
  induction fuel as [|fuel IH].
  - apply related_raise.
  - by apply tuples_load_body.
Qed.

End WithTuples.

(** [use_tuple] makes lists tuples and changes nothing else: set where it
    was not, [load] raises the same exception (the same key is found
    unhashable or duplicate), or reads the same bytes and returns the same
    value with every list made a tuple (provided the values that user
    callbacks return hold no list). *)
Theorem load_with_tuples {Src : Type} `{!ByteSource Src}
  (ext_type_to_class : gmap Z ext_class) (fuel : nat) (o : options)
  (fp : Src) :
  use_tuple o = false →
  callbacks_return (λ v, tuplify v = v) ext_type_to_class o →
  match load ext_type_to_class fuel o fp with
  | Ok (v, fp') =>
      load ext_type_to_class fuel (with_tuples o) fp = Ok (tuplify v, fp')
  | Err e => load ext_type_to_class fuel (with_tuples o) fp = Err e
  end.
Proof.
  intros Hlists Hcb.
  pose proof (tuples_load ext_type_to_class o Hlists Hcb fuel fp) as Hrel.
  destruct (load ext_type_to_class fuel o fp) as [[v f]|e],
    (load ext_type_to_class fuel (with_tuples o) fp) as [[v' f']|e'];
    try done.
  - by destruct Hrel as [[-> _] ->].
  - by subst.
Qed.

Lemma load_with_tuples_witness :
  load ∅ 3 (with_tuples default_options) [x81; x91; x01; x91; x90]
  = Ok (VDict false [(VTuple [VInt 1], VTuple [VTuple []])], []).
Proof.
  apply (@load_with_tuples (list byte) BytesIO ∅ 3 default_options
           [x81; x91; x01; x91; x90]).
  - reflexivity.
  - apply no_callbacks_return. by split.
Defined.

(** ** The float decoder *)

Lemma re0_short (fmt : string) (n : nat) (short : list byte) :
  (length short < n)%nat →
  _re0 fmt n short = Err InsufficientDataException.
Proof.
  intros Hlen. unfold _re0, bind. rewrite read_except_BytesIO.
  by destruct (Nat.leb_spec n (length short)); [lia |].
Qed.

(** The tags 0xca and 0xcb read a field of exactly 4 and 8 bytes, return it
    as a float (the field taken as a big-endian IEEE-754 single or double)
    and leave what follows unread; with fewer bytes in the buffer they fail
    for lack of data. *)
Theorem load_float (ext_type_to_class : gmap Z ext_class) (fuel : nat)
  (o : options) (c : byte) (buf : list byte) :
  0xca ≤ ord c ≤ 0xcb →
  let width := Z.to_nat (4 * (ord c - 0xc9)) in
  let decode := if ord c =? 0xca then ieee_decode 8 23 else ieee_decode 11 52 in
  load ext_type_to_class (S fuel) o (c :: buf)
  = if (width <=? length buf)%nat
    then Ok (VFloat (decode (be_unsigned (take width buf))), drop width buf)
    else Err InsufficientDataException.
Proof.
  intros [Hlo Hhi]. rewrite load_tag. revert Hlo Hhi.
  destruct c; unfold ord at 1 2; simpl Z.of_N; intros Hlo Hhi; try lia;
    cbv zeta;
    match goal with
    | |- context [Z.to_nat ?z] =>
        let w := eval vm_compute in (Z.to_nat z) in
        change (Z.to_nat z) with w
    end;
    match goal with
    | |- context [if ord ?b =? ?t then _ else _] =>
        let r := eval vm_compute in (ord b =? t) in
        change (ord b =? t) with r; cbv beta iota
    end;
    match goal with
    | |- run_routine _ _ ?b _ ?r _ = _ =>
        let r' := eval vm_compute in r in change r with r'
    end;
    unfold run_routine, _unpack_float; cbv zeta; decide_tests;
    match goal with
    | |- _re0 ?fmt ?w buf = _ =>
        destruct (Nat.leb_spec w (length buf)) as [Hle|Hlt];
        [ rewrite <- (take_drop w buf) at 1;
          rewrite (re0_BytesIO fmt w (take w buf) (drop w buf))
            by (rewrite length_take; lia);
          unfold struct_unpack, lift; decide_tests;
          rewrite (struct_unpack_sized (take w buf) w)
            by (rewrite length_take; lia);
          reflexivity
        | by apply re0_short ]
    end.
Qed.

Lemma load_float_witness :
  load ∅ 1 default_options [xca; x3f; x80; x00; x00; xff]
  = Ok (VFloat (FFin false 8388608 (-23)), [xff]).
Proof.
  apply (load_float ∅ 0 default_options xca [x3f; x80; x00; x00; xff]).
  unfold ord. simpl. lia.
Defined.
